(** * anaconda: the throttled, self-retrying query dispatcher of twitter.go

    A shallow embedding of [twitter.go] (package anaconda).  Go structs are
    records, the package variable [oauthClient], the clients reachable
    through [*TwitterApi] pointers, the wall clock and the output targets
    live in an explicit [Process] state, and every function of the source
    is a computation in a small monad whose outcomes are: return, block
    for ever on a channel operation, or panic. *)

From Stdlib Require Import ZArith String List Lia.
From stdpp Require Import base option list strings gmap.

Local Open Scope string_scope.
Local Open Scope list_scope.

(** ** External packages *)

(** Instants and durations ([time.Time], [time.Duration]) on one logical
    clock, counted in seconds. *)
Definition Time := Z.

(** [url.Values] and [http.Header]: keys with their values. *)
Definition Values := list (string * list string).

(** The first value stored under a key ([Values.Get], [Header.Get]); the
    empty string when the key is absent. *)
Fixpoint Values_Get (key : string) (v : Values) : string :=
  match v with
  | [] => ""
  | (k, vs) :: rest =>
      if String.eqb k key then hd "" vs else Values_Get key rest
  end.

Module oauth.
(** [oauth.Credentials] *)
Record Credentials := { Token : string; Secret : string }.

(** [oauth.Client]; the field [Credentials] of the Go struct is
    [ClientCredentials] here, the name being taken by the type. *)
Record Client := {
  ClientCredentials : Credentials;
  TemporaryCredentialRequestURI : string;
  ResourceOwnerAuthorizationURI : string;
  TokenRequestURI : string;
}.
End oauth.

Module http.
(** The part of [http.Response] the package reads. *)
Record Response := {
  StatusCode : Z;
  Header : Values;
  Body : string;
}.
End http.

Module tokenbucket.
(** Modelled from the spec: the token bucket of the external package
    github.com/ChimeraCoder/tokenbucket, which is not part of the
    sources.  Section 3 of the specification gives it a refill
    interval, a capacity and a current token count. *)
Record Bucket := { rate : Time; capacity : Z; tokens : Z }.

(** Modelled from the spec: a new bucket holds [capacity] tokens (the
    scenario of section 8 lets the first [capacity] requests through at
    once). *)
Definition NewBucket (rate : Time) (capacity : Z) : Bucket :=
  {| rate := rate; capacity := capacity; tokens := capacity |}.

Definition SetRate (t : Time) (b : Bucket) : Bucket :=
  {| rate := t; capacity := capacity b; tokens := tokens b |}.

Definition GetRate (b : Bucket) : Time := rate b.

(** Modelled from the spec: "drain() resets current tokens to 0 without
    blocking". *)
Definition Drain (b : Bucket) : Bucket :=
  {| rate := rate b; capacity := capacity b; tokens := 0%Z |}.

(** Modelled from the spec: "acquire(n) blocks the calling execution
    until n tokens are available, then atomically deducts them"; one
    token is produced per refill interval.  The result is the bucket
    after the deduction and the instant at which the caller resumes. *)
Definition SpendToken (n : Z) (b : Bucket) (now : Time) : Bucket * Time :=
  if (n <=? tokens b)%Z
  then ({| rate := rate b; capacity := capacity b;
           tokens := (tokens b - n)%Z |}, now)
  else ({| rate := rate b; capacity := capacity b; tokens := 0%Z |},
        (now + (n - tokens b) * rate b)%Z).
End tokenbucket.

(** ** The data model of twitter.go *)

(** const ( _GET = iota; _POST = iota ) *)
Definition _GET : Z := 0%Z.
Definition _POST : Z := 1%Z.

Definition DEFAULT_DELAY : Time := 0%Z.
Definition DEFAULT_CAPACITY : Z := 5%Z.

(** The content of an output target (the Go value behind a [data
    interface{}]), opaque to this package. *)
Definition Val := string.

(** Modelled from the spec: the type [ApiError] is declared in a file of
    the package that is not part of the sources.  Section 4.2 makes it
    carry "the status code and enough of the response body/headers" to
    classify the rejection later. *)
Record ApiError := {
  StatusCode : Z;
  Header : Values;
  Body : string;
}.

(** Modelled from the spec: [newApiError], declared next to [ApiError],
    copies status code, headers and body of the response. *)
Definition newApiError (resp : http.Response) : ApiError :=
  {| StatusCode := http.StatusCode resp;
     Header := http.Header resp;
     Body := http.Body resp |}.

(** The dynamic types a Go [error] takes in this file: what the signed
    transport returns, what the JSON decoder returns, the value built by
    [fmt.Errorf], and a pointer to an [ApiError].  Only the last one passes the type
    assertion of [err] to a pointer to [ApiError]. *)
Inductive error :=
| TransportError (msg : string)
| DecodeError (msg : string)
| errorString (msg : string)
| ApiErrorPtr (e : ApiError).

(** type query struct: [data] is the address of the output target and
    [response_ch] the identity of the private result channel. *)
Record query := {
  url : string;
  form : Values;
  data : nat;
  method : Z;
  response_ch : nat;
}.

(** type response struct { data; err }: a nil [err] is [None]. *)
Record response := {
  rdata : nat;
  rerr : option error;
}.

(** A Go channel of queries: [cap] is the size given to [make]; [pending]
    holds, oldest first, the values buffered in the channel followed by
    the values of the senders parked on it.  The receiver takes the head. *)
Record chan := {
  cap : nat;
  pending : list query;
}.

Definition make_chan (n : nat) : chan := {| cap := n; pending := [] |}.

(** type TwitterApi struct: a nil [bucket] is [None]. *)
Record TwitterApi := {
  Credentials : oauth.Credentials;
  queryQueue : chan;
  bucket : option tokenbucket.Bucket;
}.

Inductive Verb := GET | POST.

(** What the process does that an observer outside can see, oldest
    first.  A client is named by its address. *)
Inductive Event :=
| EvRecv (c : nat) (q : query)
| EvSpendToken (c : nat) (n : Z)
| EvSigned (v : Verb) (consumer : oauth.Credentials)
           (user : oauth.Credentials) (urlStr : string) (f : Values)
| EvDeliver (ch : nat) (r : response)
| EvRequeue (c : nat) (q : query)
| EvSleep (until : Time)
| EvDrain (c : nat).

(** The state of the process: the package variable [oauthClient], the
    clients by address ([*TwitterApi]), the dispatcher goroutines started
    by [go c.throttledQuery()] (by the address of their client), the wall
    clock, the number of signed calls made so far, the output targets by
    address, the dispatchers parked for ever (by the address of their
    client), and the events so far. *)
Record Process := {
  oauthClient : oauth.Client;
  heap : list TwitterApi;
  goroutines : list nat;
  now : Time;
  calls : nat;
  targets : gmap nat Val;
  parked : list nat;
  trace : list Event;
}.

Definition set_oauthClient (o : oauth.Client) (p : Process) : Process :=
  {| oauthClient := o; heap := heap p; goroutines := goroutines p;
     now := now p; calls := calls p; targets := targets p;
     parked := parked p; trace := trace p |}.

Definition set_heap (h : list TwitterApi) (p : Process) : Process :=
  {| oauthClient := oauthClient p; heap := h; goroutines := goroutines p;
     now := now p; calls := calls p; targets := targets p;
     parked := parked p; trace := trace p |}.

Definition set_goroutines (g : list nat) (p : Process) : Process :=
  {| oauthClient := oauthClient p; heap := heap p; goroutines := g;
     now := now p; calls := calls p; targets := targets p;
     parked := parked p; trace := trace p |}.

Definition set_now (t : Time) (p : Process) : Process :=
  {| oauthClient := oauthClient p; heap := heap p;
     goroutines := goroutines p; now := t; calls := calls p;
     targets := targets p; parked := parked p; trace := trace p |}.

Definition set_calls (n : nat) (p : Process) : Process :=
  {| oauthClient := oauthClient p; heap := heap p;
     goroutines := goroutines p; now := now p; calls := n;
     targets := targets p; parked := parked p; trace := trace p |}.

Definition set_targets (m : gmap nat Val) (p : Process) : Process :=
  {| oauthClient := oauthClient p; heap := heap p;
     goroutines := goroutines p; now := now p; calls := calls p;
     targets := m; parked := parked p; trace := trace p |}.

Definition log (e : Event) (p : Process) : Process :=
  {| oauthClient := oauthClient p; heap := heap p;
     goroutines := goroutines p; now := now p; calls := calls p;
     targets := targets p; parked := parked p; trace := trace p ++ [e] |}.

Definition set_parked (l : list nat) (p : Process) : Process :=
  {| oauthClient := oauthClient p; heap := heap p;
     goroutines := goroutines p; now := now p; calls := calls p;
     targets := targets p; parked := l; trace := trace p |}.

Definition set_queryQueue (ch : chan) (a : TwitterApi) : TwitterApi :=
  {| Credentials := Credentials a; queryQueue := ch; bucket := bucket a |}.

Definition set_bucket (b : option tokenbucket.Bucket) (a : TwitterApi)
  : TwitterApi :=
  {| Credentials := Credentials a; queryQueue := queryQueue a; bucket := b |}.

(** The process as the package initialises it: [oauthClient] as declared
    (consumer credentials empty), no client, no goroutine. *)
Definition init_oauthClient : oauth.Client :=
  {| oauth.ClientCredentials := {| oauth.Token := ""; oauth.Secret := "" |};
     oauth.TemporaryCredentialRequestURI :=
       "http://api.twitter.com/oauth/request_token";
     oauth.ResourceOwnerAuthorizationURI :=
       "http://api.twitter.com/oauth/authenticate";
     oauth.TokenRequestURI := "http://api.twitter.com/oauth/access_token" |}.

Definition init_Process : Process :=
  {| oauthClient := init_oauthClient; heap := []; goroutines := [];
     now := 0%Z; calls := 0; targets := ∅; parked := []; trace := [] |}.

(** ** Computations *)

(** How a computation of a goroutine ends: it returns, it stays parked on
    a channel operation that no goroutine of the process will ever
    complete, or it panics. *)
Inductive Outcome (A : Type) : Type :=
| Ret (a : A) (p : Process)
| Block (p : Process)
| Panic (p : Process).
Arguments Ret {A} a p.
Arguments Block {A} p.
Arguments Panic {A} p.

Definition M (A : Type) : Type := Process -> Outcome A.

Definition ret {A} (a : A) : M A := fun p => Ret a p.

Definition bind {A B} (m : M A) (k : A -> M B) : M B :=
  fun p =>
    match m p with
    | Ret a p' => k a p'
    | Block p' => Block p'
    | Panic p' => Panic p'
    end.

Notation "x <- m ;; k" := (bind m (fun x => k))
  (at level 100, m at next level, right associativity).
Notation "m ;;; k" := (bind m (fun _ => k))
  (at level 100, right associativity).

(** The state in which a computation ends, whatever the outcome. *)
Definition final {A} (o : Outcome A) : Process :=
  match o with
  | Ret _ p => p
  | Block p => p
  | Panic p => p
  end.

Definition panic {A} : M A := fun p => Panic p.

(** The dispatcher of client [c] parks for ever. *)
Definition park {A} (c : nat) : M A :=
  fun p => Block (set_parked (c :: parked p) p).

(** The other goroutines go on while one is parked. *)
Definition meanwhile {A B} (m : M A) (k : M B) : M B :=
  fun p =>
    match m p with
    | Ret _ p' => k p'
    | Block p' => k p'
    | Panic p' => Panic p'
    end.
Definition emit (e : Event) : M unit := fun p => Ret tt (log e p).

(** Reading and writing through a [*TwitterApi]; an address that holds no
    client is a nil pointer, and dereferencing it panics. *)
Definition load (c : nat) : M TwitterApi :=
  fun p =>
    match heap p !! c with
    | Some a => Ret a p
    | None => Panic p
    end.

Definition store (c : nat) (a : TwitterApi) : M unit :=
  fun p => Ret tt (set_heap (<[c := a]> (heap p)) p).

(** [&TwitterApi{...}]: the new client gets the next free address. *)
Definition alloc (a : TwitterApi) : M nat :=
  fun p => Ret (length (heap p)) (set_heap (heap p ++ [a]) p).

(** [go c.throttledQuery()] *)
Definition go_throttledQuery (c : nat) : M unit :=
  fun p => Ret tt (set_goroutines (goroutines p ++ [c]) p).

(** [time.Now()] *)
Definition time_Now : M Time := fun p => Ret (now p) p.

(** The goroutine is parked until the instant [t]. *)
Definition resume_at (t : Time) : M unit :=
  fun p => Ret tt (set_now t p).

(** [<-time.After(t.Sub(time.Now()))]: the goroutine resumes at [t], or at
    once when [t] is past. *)
Definition sleep_until (t : Time) : M unit :=
  n <- time_Now ;;
  resume_at (Z.max n t) ;;;
  emit (EvSleep t).

(** ** Configuration *)

(** func NewTwitterApi *)
Definition NewTwitterApi (access_token access_token_secret : string) : M nat :=
  let queue := make_chan 0 in
  c <- alloc {| Credentials := {| oauth.Token := access_token;
                                  oauth.Secret := access_token_secret |};
                queryQueue := queue;
                bucket := None |} ;;
  go_throttledQuery c ;;;
  ret c.

(** func SetConsumerKey *)
Definition SetConsumerKey (consumer_key : string) : M unit :=
  fun p =>
    let o := oauthClient p in
    Ret tt (set_oauthClient
      {| oauth.ClientCredentials :=
           {| oauth.Token := consumer_key;
              oauth.Secret := oauth.Secret (oauth.ClientCredentials o) |};
         oauth.TemporaryCredentialRequestURI :=
           oauth.TemporaryCredentialRequestURI o;
         oauth.ResourceOwnerAuthorizationURI :=
           oauth.ResourceOwnerAuthorizationURI o;
         oauth.TokenRequestURI := oauth.TokenRequestURI o |} p).

(** func SetConsumerSecret *)
Definition SetConsumerSecret (consumer_secret : string) : M unit :=
  fun p =>
    let o := oauthClient p in
    Ret tt (set_oauthClient
      {| oauth.ClientCredentials :=
           {| oauth.Token := oauth.Token (oauth.ClientCredentials o);
              oauth.Secret := consumer_secret |};
         oauth.TemporaryCredentialRequestURI :=
           oauth.TemporaryCredentialRequestURI o;
         oauth.ResourceOwnerAuthorizationURI :=
           oauth.ResourceOwnerAuthorizationURI o;
         oauth.TokenRequestURI := oauth.TokenRequestURI o |} p).

(** func (c *TwitterApi) EnableRateLimiting *)
Definition EnableRateLimiting (c : nat) (rate : Time) (bufferSize : Z)
  : M unit :=
  a <- load c ;;
  store c (set_bucket (Some (tokenbucket.NewBucket rate bufferSize)) a).

(** func (c *TwitterApi) DisableRateLimiting *)
Definition DisableRateLimiting (c : nat) : M unit :=
  a <- load c ;;
  store c (set_bucket None a).

(** func (c *TwitterApi) SetDelay: [c.bucket.SetRate(t)] reads and writes
    the fields of the bucket behind the pointer, a nil pointer panics. *)
Definition SetDelay (c : nat) (t : Time) : M unit :=
  a <- load c ;;
  match bucket a with
  | None => panic
  | Some b => store c (set_bucket (Some (tokenbucket.SetRate t b)) a)
  end.

(** func (c *TwitterApi) GetDelay *)
Definition GetDelay (c : nat) : M Time :=
  a <- load c ;;
  match bucket a with
  | None => panic
  | Some b => ret (tokenbucket.GetRate b)
  end.

(** ** Channel operations on the request queue *)

Definition set_pending (l : list query) (a : TwitterApi) : TwitterApi :=
  set_queryQueue {| cap := cap (queryQueue a); pending := l |} a.

(** [for q := range c.queryQueue]: the dispatcher takes the oldest pending
    query; [None] when nothing is pending (the goroutine waits for the
    next submission). *)
Definition recv_queryQueue (c : nat) : M (option query) :=
  a <- load c ;;
  match pending (queryQueue a) with
  | [] => ret None
  | q :: rest =>
      store c (set_pending rest a) ;;;
      emit (EvRecv c q) ;;;
      ret (Some q)
  end.

(** [c.QueryQueue <- q] inside [throttledQuery] (the struct field is
    spelled [queryQueue]; the comment above the statement says "re-add the
    job to the queue").  The send completes when the buffer has room.
    Otherwise the sender parks until a receiver takes its value; the
    sender being the only goroutine that receives from this channel
    ("It is the only function that reads from the queryQueue"), it parks
    for ever. *)
Definition send_queryQueue (c : nat) (q : query) : M unit :=
  a <- load c ;;
  if (length (pending (queryQueue a)) <? cap (queryQueue a))%nat
  then store c (set_pending (pending (queryQueue a) ++ [q]) a) ;;;
       emit (EvRequeue c q)
  else park c.

(** Modelled from the spec: the client submission API (section 4.4), whose
    functions are in files of the package that are not part of the
    sources: a caller "sends it into the Dispatcher's queue (suspends if
    the Dispatcher is busy)"; its query joins the pending ones at the
    tail. *)
Definition submit (c : nat) (q : query) : M unit :=
  a <- load c ;;
  store c (set_pending (pending (queryQueue a) ++ [q]) a).

(** [response_ch <- r]: the caller that created the channel is parked on
    its receiving end (section 4.4), so the send completes. *)
Definition send_response (ch : nat) (r : response) : M unit :=
  emit (EvDeliver ch r).

(** [<-c.bucket.SpendToken(1)] *)
Definition bucket_SpendToken (c : nat) (n : Z) : M unit :=
  a <- load c ;;
  match bucket a with
  | None => panic
  | Some b =>
      t <- time_Now ;;
      store c (set_bucket (Some (tokenbucket.SpendToken n b t).1) a) ;;;
      resume_at (tokenbucket.SpendToken n b t).2 ;;;
      emit (EvSpendToken c n)
  end.

(** [c.bucket.Drain()]: the method reads the bucket behind the pointer, a
    nil pointer panics. *)
Definition bucket_Drain (c : nat) : M unit :=
  a <- load c ;;
  match bucket a with
  | None => panic
  | Some b =>
      store c (set_bucket (Some (tokenbucket.Drain b)) a) ;;;
      emit (EvDrain c)
  end.

Section Dispatcher.

(** The signed transport of package oauth over [http.DefaultClient]:
    the answer to the n-th signed call of the process, given the verb,
    the OAuth client that signs, the credentials of the user, the URL
    and the form; a response, or the message of a transport error. *)
Variable roundTrip :
  nat -> Verb -> oauth.Client -> oauth.Credentials -> string -> Values ->
  http.Response + string.

(** [json.NewDecoder(body).Decode(data)]: from the body and the content
    of the target, the new content of the target and the message of the
    decode error, if any. *)
Variable jsonDecode : string -> option Val -> option Val * option string.

(** The method [RateLimitCheck] of [ApiError], declared next to it
    outside the sources: from the error and the current instant, whether it is
    a rate-limit rejection and when the window resets. *)
Variable RateLimitCheck : ApiError -> Time -> bool * Time.

(** [oauthClient.Get] and [oauthClient.Post] *)
Definition oauthClient_call (v : Verb) (credentials : oauth.Credentials)
    (urlStr : string) (f : Values) : M (http.Response + string) :=
  fun p =>
    Ret (roundTrip (calls p) v (oauthClient p) credentials urlStr f)
        (log (EvSigned v (oauth.ClientCredentials (oauthClient p))
                       credentials urlStr f)
             (set_calls (S (calls p)) p)).

Definition json_Decode (body : string) (data : nat) : M (option error) :=
  fun p =>
    let r := jsonDecode body (targets p !! data) in
    Ret (DecodeError <$> r.2)
        (set_targets (partial_alter (fun _ => r.1) data (targets p)) p).

(** func decodeResponse *)
Definition decodeResponse (resp : http.Response) (data : nat)
  : M (option error) :=
  if negb (http.StatusCode resp =? 200)%Z
  then ret (Some (ApiErrorPtr (newApiError resp)))
  else json_Decode (http.Body resp) data.

(** func (c TwitterApi) apiGet *)
Definition apiGet (c : TwitterApi) (urlStr : string) (f : Values)
    (data : nat) : M (option error) :=
  r <- oauthClient_call GET (Credentials c) urlStr f ;;
  match r with
  | inr err => ret (Some (TransportError err))
  | inl resp => decodeResponse resp data
  end.

(** func (c TwitterApi) apiPost *)
Definition apiPost (c : TwitterApi) (urlStr : string) (f : Values)
    (data : nat) : M (option error) :=
  r <- oauthClient_call POST (Credentials c) urlStr f ;;
  match r with
  | inr err => ret (Some (TransportError err))
  | inl resp => decodeResponse resp data
  end.

(** func (c TwitterApi) execQuery *)
Definition execQuery (c : TwitterApi) (urlStr : string) (f : Values)
    (data : nat) (method : Z) : M (option error) :=
  if (method =? _GET)%Z then apiGet c urlStr f data
  else if (method =? _POST)%Z then apiPost c urlStr f data
  else ret (Some (errorString "HTTP method not yet supported")).

(** The gate of the loop: [if c.bucket != nil { <-c.bucket.SpendToken(1) }] *)
Definition gate (c : nat) : M unit :=
  a <- load c ;;
  match bucket a with
  | Some _ => bucket_SpendToken c 1
  | None => ret tt
  end.

(** What the loop does with the result of [execQuery]. *)
Definition classify (c : nat) (q : query) (err : option error) : M unit :=
  match err with
  | Some e =>
      match e with
      | ApiErrorPtr apiErr =>
          t <- time_Now ;;
          if (RateLimitCheck apiErr t).1
          then
            send_queryQueue c q ;;;
            sleep_until (RateLimitCheck apiErr t).2 ;;;
            bucket_Drain c
          else ret tt
      | _ => ret tt
      end
  | None =>
      send_response (response_ch q) {| rdata := data q; rerr := err |}
  end.

(** The body of the loop of [throttledQuery], for the query [q] just
    received. *)
Definition throttledQuery_body (c : nat) (q : query) : M unit :=
  gate c ;;;
  a <- load c ;;
  err <- execQuery a (url q) (form q) (data q) (method q) ;;
  classify c q err.

(** One turn of [for q := range c.queryQueue]; [false] when no query is
    pending. *)
Definition throttledQuery_turn (c : nat) : M bool :=
  oq <- recv_queryQueue c ;;
  match oq with
  | None => ret false
  | Some q => throttledQuery_body c q ;;; ret true
  end.

(** func (c *TwitterApi) throttledQuery, for at most [fuel] turns.  The
    result is [true] when the goroutine is back at the head of the loop
    with nothing pending, [false] when the turns are used up. *)
Fixpoint throttledQuery (fuel : nat) (c : nat) : M bool :=
  match fuel with
  | O => ret false
  | S n =>
      more <- throttledQuery_turn c ;;
      if more then throttledQuery n c else ret true
  end.

(** Callers and the dispatcher of client [c] taking turns; a parked
    dispatcher takes none. *)
Inductive Action :=
| Submit (q : query)
| Turn.

Definition act (c : nat) (a : Action) : M unit :=
  match a with
  | Submit q => submit c q
  | Turn =>
      fun p =>
        if bool_decide (c ∈ parked p) then Ret tt p
        else (throttledQuery_turn c ;;; ret tt) p
  end.

Fixpoint run (c : nat) (l : list Action) : M unit :=
  match l with
  | [] => ret tt
  | a :: rest => meanwhile (act c a) (run c rest)
  end.

(** What the goroutines of the process may do next: a call of the
    configuration API by some goroutine, a submission by a caller, or a
    turn of the dispatcher of a client. *)
Inductive Op :=
| OpNewTwitterApi (access_token access_token_secret : string)
| OpSetConsumerKey (consumer_key : string)
| OpSetConsumerSecret (consumer_secret : string)
| OpEnableRateLimiting (c : nat) (rate : Time) (bufferSize : Z)
| OpDisableRateLimiting (c : nat)
| OpSetDelay (c : nat) (t : Time)
| OpGetDelay (c : nat)
| OpAct (c : nat) (a : Action).

Definition step (o : Op) : M unit :=
  match o with
  | OpNewTwitterApi t s => NewTwitterApi t s ;;; ret tt
  | OpSetConsumerKey k => SetConsumerKey k
  | OpSetConsumerSecret s => SetConsumerSecret s
  | OpEnableRateLimiting c r b => EnableRateLimiting c r b
  | OpDisableRateLimiting c => DisableRateLimiting c
  | OpSetDelay c t => SetDelay c t
  | OpGetDelay c => GetDelay c ;;; ret tt
  | OpAct c a => act c a
  end.

(** A panic ends the process, and so does the run. *)
Fixpoint steps (l : list Op) : M unit :=
  match l with
  | [] => ret tt
  | o :: rest => meanwhile (step o) (steps rest)
  end.

End Dispatcher.

(** ** Observations on a trace *)

(** The results written to the result channel [ch], oldest first. *)
Fixpoint deliveries (ch : nat) (tr : list Event) : list response :=
  match tr with
  | [] => []
  | EvDeliver ch' r :: rest =>
      if Nat.eqb ch' ch then r :: deliveries ch rest else deliveries ch rest
  | _ :: rest => deliveries ch rest
  end.

(** The result channels written to, oldest first. *)
Fixpoint delivered (tr : list Event) : list nat :=
  match tr with
  | [] => []
  | EvDeliver ch _ :: rest => ch :: delivered rest
  | _ :: rest => delivered rest
  end.

(** The queries received by the dispatchers, oldest first. *)
Fixpoint received (tr : list Event) : list query :=
  match tr with
  | [] => []
  | EvRecv _ q :: rest => q :: received rest
  | _ :: rest => received rest
  end.

(** The signed calls, oldest first: verb, URL and form. *)
Fixpoint signed_calls (tr : list Event) : list (Verb * string * Values) :=
  match tr with
  | [] => []
  | EvSigned v _ _ u f :: rest => (v, u, f) :: signed_calls rest
  | _ :: rest => signed_calls rest
  end.

Definition is_SpendToken (e : Event) : bool :=
  match e with EvSpendToken _ _ => true | _ => false end.
Definition is_Signed (e : Event) : bool :=
  match e with EvSigned _ _ _ _ _ => true | _ => false end.
Definition is_Deliver (e : Event) : bool :=
  match e with EvDeliver _ _ => true | _ => false end.
Definition is_Requeue (e : Event) : bool :=
  match e with EvRequeue _ _ => true | _ => false end.
Definition is_Sleep (e : Event) : bool :=
  match e with EvSleep _ => true | _ => false end.
Definition is_Drain (e : Event) : bool :=
  match e with EvDrain _ => true | _ => false end.

(** ** Sample collaborators, for running the dispatcher on concrete inputs *)

Module Sample.

(** A transport that answers the n-th signed call with the n-th entry
    of a script, and fails once the script is used up. *)
Definition scripted (script : list (http.Response + string))
  : nat -> Verb -> oauth.Client -> oauth.Credentials -> string -> Values ->
    http.Response + string :=
  fun n _ _ _ _ _ => nth n script (inr "connection refused").

(** A decoder that stores the body in the target and rejects the empty
    body, leaving the target as it was. *)
Definition decode (body : string) (old : option Val)
  : option Val * option string :=
  if String.eqb body "" then (old, Some "EOF") else (Some body, None).

Definition digit (a : Ascii.ascii) : option Z :=
  let n := Z.of_nat (Ascii.nat_of_ascii a) in
  if ((48 <=? n) && (n <=? 57))%Z then Some (n - 48)%Z else None.

Fixpoint parse_digits (acc : Z) (s : string) : option Z :=
  match s with
  | EmptyString => Some acc
  | String a rest =>
      match digit a with
      | Some d => parse_digits (10 * acc + d)%Z rest
      | None => None
      end
  end.

(** Modelled from the spec: the classification of section 6, "HTTP 429"
    with "the reset instant, parsed from a server-provided header"
    expressed as epoch seconds. *)
Definition rateLimitCheck (e : ApiError) (now : Time) : bool * Time :=
  if (StatusCode e =? 429)%Z then
    match Values_Get "X-Rate-Limit-Reset" (Header e) with
    | "" => (false, 0%Z)
    | reset =>
        match parse_digits 0 reset with
        | Some t => (true, t)
        | None => (false, 0%Z)
        end
    end
  else (false, 0%Z).

(** A classification that never finds a rate-limit rejection. *)
Definition never (e : ApiError) (now : Time) : bool * Time := (false, 0%Z).

Definition ok (body : string) : http.Response + string :=
  inl {| http.StatusCode := 200; http.Header := []; http.Body := body |}.

Definition status (code : Z) (body : string) : http.Response + string :=
  inl {| http.StatusCode := code; http.Header := []; http.Body := body |}.

Definition tooMany (reset : string) : http.Response + string :=
  inl {| http.StatusCode := 429;
         http.Header := [("X-Rate-Limit-Reset", [reset])];
         http.Body := "Rate limit exceeded" |}.

Definition get (u : string) (d ch : nat) : query :=
  {| url := u; form := []; data := d; method := _GET; response_ch := ch |}.

Definition post (u : string) (d ch : nat) : query :=
  {| url := u; form := []; data := d; method := _POST; response_ch := ch |}.

End Sample.

(** ** Notions used in the statements *)

(** Whatever the outcome of [m], the state it ends in is related by [R] to
    the state it started from. *)
Definition preserves (R : relation Process) {A} (m : M A) : Prop :=
  forall p, R p (final (m p)).

(** The events of [tr'] that come after those of [tr] are [evs]. *)
Definition extends_by (tr tr' evs : list Event) : Prop := tr' = tr ++ evs.

(** The pending queries of client [c]. *)
Definition pending_of (c : nat) (p : Process) : list query :=
  match heap p !! c with
  | Some a => pending (queryQueue a)
  | None => []
  end.

(** The bucket of client [c]: [None] when there is no such client,
    [Some None] when its bucket is nil. *)
Definition bucket_of (c : nat) (p : Process) : option (option tokenbucket.Bucket) :=
  bucket <$> heap p !! c.

(** From a state in which [I] holds, the computation ends in a state in
    which [I] holds, and every event that came in between satisfies [P]. *)
Definition inv_rel (I : Process -> Prop) (P : Event -> Prop)
  : relation Process :=
  fun p p' =>
    I p -> I p' /\ exists evs, trace p' = trace p ++ evs /\ Forall P evs.

(** A signed call made with consumer credentials that satisfy [Q]; no
    condition on the other events. *)
Definition signed_with (Q : oauth.Credentials -> Prop) (e : Event) : Prop :=
  match e with
  | EvSigned _ consumer _ _ _ => Q consumer
  | _ => True
  end.

Definition consumer_is (Q : oauth.Credentials -> Prop) (p : Process) : Prop :=
  Q (oauth.ClientCredentials (oauthClient p)).

Definition is_SetConsumerKey (o : Op) : bool :=
  match o with OpSetConsumerKey _ => true | _ => false end.

Definition is_SetConsumerSecret (o : Op) : bool :=
  match o with OpSetConsumerSecret _ => true | _ => false end.

(** [EnableRateLimiting] called on client [c]. *)
Definition enables (c : nat) (o : Op) : bool :=
  match o with
  | OpEnableRateLimiting c' _ _ => Nat.eqb c' c
  | _ => false
  end.

(** A token taken from the bucket of client [c]. *)
Definition spends (c : nat) (e : Event) : bool :=
  match e with
  | EvSpendToken c' _ => Nat.eqb c' c
  | _ => false
  end.

(** Every dispatcher goroutine belongs to a client of the process. *)
Definition dispatchers_ok (p : Process) : Prop :=
  Forall (fun g => g < length (heap p)) (goroutines p).

(** The queries that the callers submit in the course of [l]. *)
Fixpoint submitted (l : list Action) : list query :=
  match l with
  | [] => []
  | Submit q :: rest => q :: submitted rest
  | Turn :: rest => submitted rest
  end.

(** The signed call that the query asks for, if its method is supported. *)
Definition call_of (q : query) : list (Verb * string * Values) :=
  if (method q =? _GET)%Z then [(GET, url q, form q)]
  else if (method q =? _POST)%Z then [(POST, url q, form q)]
  else [].

(** How many of the queries [qs] carry the result channel [ch]. *)
Definition asked (ch : nat) (qs : list query) : nat :=
  length (List.filter (fun q => Nat.eqb (response_ch q) ch) qs).

(** The results already written to [ch], plus the queries pending at
    client [c] that may still write to it. *)
Definition owed (ch c : nat) (p : Process) : nat :=
  length (deliveries ch (trace p)) + asked ch (pending_of c p).

(** Whatever the outcome of [m], the measure grows by [n] at most. *)
Definition bounded (mu : Process -> nat) (n : nat) {A} (m : M A) : Prop :=
  forall p, mu (final (m p)) <= mu p + n.

(** ** The rest of twitter.go *)

(** A [url.Values] that may be the nil map. *)
Definition NilableValues := option Values.

(** [v.Get(key)] on a map that may be nil: reading the nil map gives the
    empty string. *)
Definition Get (key : string) (v : NilableValues) : string :=
  match v with
  | None => ""
  | Some m => Values_Get key m
  end.

(** func cleanValues *)
Definition cleanValues (v : NilableValues) : NilableValues :=
  match v with
  | None => Some []
  | Some _ => v
  end.

(** func AuthorizationURL.  The two methods of the OAuth library are
    parameters: [RequestTemporaryCredentials] gives the temporary
    credentials or the message of its error, [AuthorizationURL_of] builds
    the URL; both are called on the package variable [oauthClient]. *)
Definition AuthorizationURL
    (RequestTemporaryCredentials :
       oauth.Client -> string -> oauth.Credentials + string)
    (AuthorizationURL_of : oauth.Client -> oauth.Credentials -> string)
    (callback : string) : M (string * option error) :=
  fun p =>
    match RequestTemporaryCredentials (oauthClient p) callback with
    | inr err => Ret ("", Some (TransportError err)) p
    | inl tempCred =>
        Ret (AuthorizationURL_of (oauthClient p) tempCred, None) p
    end.

(** ** More notions used in the statements *)

Definition is_Recv (e : Event) : bool :=
  match e with EvRecv _ _ => true | _ => false end.

(** Result channel and output target of every result written, oldest
    first. *)
Fixpoint answers (tr : list Event) : list (nat * nat) :=
  match tr with
  | [] => []
  | EvDeliver ch r :: rest => (ch, rdata r) :: answers rest
  | _ :: rest => answers rest
  end.

(** Result channel and output target of every query received, oldest
    first. *)
Definition requests (tr : list Event) : list (nat * nat) :=
  map (fun q => (response_ch q, data q)) (received tr).

(** A result that carries no error; no condition on the other events. *)
Definition nil_err (e : Event) : Prop :=
  match e with
  | EvDeliver _ r => rerr r = None
  | _ => True
  end.

(** The number of tokens taken from the bucket of client [c]. *)
Definition spent (c : nat) (tr : list Event) : nat :=
  length (List.filter (spends c) tr).

(** An operation made on client [c]: a configuration call on it, a
    submission to it, or a turn of its dispatcher. *)
Definition addresses (c : nat) (o : Op) : bool :=
  match o with
  | OpEnableRateLimiting c' _ _ | OpDisableRateLimiting c' | OpSetDelay c' _
  | OpGetDelay c' | OpAct c' _ => Nat.eqb c' c
  | _ => false
  end.

(** What never changes in a client: its credentials and the capacity of
    its queue. *)
Definition identity_of (c : nat) (p : Process)
  : option (oauth.Credentials * nat) :=
  (fun a => (Credentials a, cap (queryQueue a))) <$> heap p !! c.

(** Every result written since [p] answers a query received since [p],
    in the order of reception, and carries no error. *)
Definition answered : relation Process :=
  fun p p' =>
    exists evs,
      trace p' = trace p ++ evs /\
      answers evs `sublist_of` requests evs /\
      Forall nil_err evs.

(** What the body of the loop writes for the query [q]: nothing, or one
    result without error to the channel of [q] for the target of [q]. *)
Definition answers_to (q : query) (p p' : Process) : Prop :=
  exists evs,
    trace p' = trace p ++ evs /\
    received evs = [] /\
    (answers evs = [] \/ answers evs = [(response_ch q, data q)]) /\
    Forall nil_err evs.

(** What the operations made on other clients leave alone in a client:
    its credentials, its queue, and whether it has a bucket, with the
    rate and the capacity of that bucket. *)
Definition settings (a : TwitterApi)
  : oauth.Credentials * chan * option (Time * Z) :=
  (Credentials a, queryQueue a,
   (fun b => (tokenbucket.rate b, tokenbucket.capacity b)) <$> bucket a).

(** * Properties *)

(** ** Running computations *)

Lemma bind_Ret {A B} (m : M A) (k : A -> M B) p a p' :
  m p = Ret a p' -> bind m k p = k a p'.
Proof. intros E. unfold bind. now rewrite E. Qed.

Lemma bind_Block {A B} (m : M A) (k : A -> M B) p p' :
  m p = Block p' -> bind m k p = Block p'.
Proof. intros E. unfold bind. now rewrite E. Qed.

Lemma bind_Panic {A B} (m : M A) (k : A -> M B) p p' :
  m p = Panic p' -> bind m k p = Panic p'.
Proof. intros E. unfold bind. now rewrite E. Qed.

Lemma load_Some c a p : heap p !! c = Some a -> load c p = Ret a p.
Proof. intros E. unfold load. now rewrite E. Qed.

Lemma load_None c p : heap p !! c = None -> load c p = Panic (A:=TwitterApi) p.
Proof. intros E. unfold load. now rewrite E. Qed.

(** The observations distribute over the concatenation of traces. *)
Lemma deliveries_app ch tr1 tr2 :
  deliveries ch (tr1 ++ tr2) = deliveries ch tr1 ++ deliveries ch tr2.
Proof.
  induction tr1 as [|e tr1 IH]; simpl; [reflexivity|].
  destruct e; try assumption.
  destruct (Nat.eqb ch0 ch); simpl; now rewrite IH.
Qed.

Lemma delivered_app tr1 tr2 :
  delivered (tr1 ++ tr2) = delivered tr1 ++ delivered tr2.
Proof.
  induction tr1 as [|e tr1 IH]; simpl; [reflexivity|].
  destruct e; simpl; now rewrite ?IH.
Qed.

Lemma received_app tr1 tr2 :
  received (tr1 ++ tr2) = received tr1 ++ received tr2.
Proof.
  induction tr1 as [|e tr1 IH]; simpl; [reflexivity|].
  destruct e; simpl; now rewrite ?IH.
Qed.

Lemma signed_calls_app tr1 tr2 :
  signed_calls (tr1 ++ tr2) = signed_calls tr1 ++ signed_calls tr2.
Proof.
  induction tr1 as [|e tr1 IH]; simpl; [reflexivity|].
  destruct e; simpl; now rewrite ?IH.
Qed.

(** ** Relations between the state before and the state after *)

Section Frames.
Context (R : relation Process) `{!PreOrder R}.

Lemma preserves_ret {A} (a : A) : preserves R (ret a).
Proof. intros p. simpl. reflexivity. Qed.

Lemma preserves_panic {A} : preserves R (@panic A).
Proof. intros p. simpl. reflexivity. Qed.

Lemma preserves_load c : preserves R (load c).
Proof. intros p. unfold load. destruct (heap p !! c); simpl; reflexivity. Qed.

Lemma preserves_time_Now : preserves R time_Now.
Proof. intros p. simpl. reflexivity. Qed.

Lemma preserves_bind {A B} (m : M A) (k : A -> M B) :
  preserves R m -> (forall a, preserves R (k a)) -> preserves R (bind m k).
Proof.
  intros Hm Hk p. unfold bind.
  specialize (Hm p). destruct (m p) as [a p'|p'|p']; simpl in *; trivial.
  transitivity p'; [assumption|apply Hk].
Qed.

Lemma preserves_meanwhile {A B} (m : M A) (k : M B) :
  preserves R m -> preserves R k -> preserves R (meanwhile m k).
Proof.
  intros Hm Hk p. unfold meanwhile.
  specialize (Hm p). destruct (m p) as [a p'|p'|p']; simpl in *; trivial;
    (transitivity p'; [assumption|apply Hk]).
Qed.
End Frames.


(** ** The query executor *)

Section Executor.
Variable roundTrip :
  nat -> Verb -> oauth.Client -> oauth.Credentials -> string -> Values ->
  http.Response + string.
Variable jsonDecode : string -> option Val -> option Val * option string.

(** A signed call is one event and one more call on the counter; nothing
    else moves. *)
Lemma oauthClient_call_eq v cr u f p :
  oauthClient_call roundTrip v cr u f p =
  Ret (roundTrip (calls p) v (oauthClient p) cr u f)
      (log (EvSigned v (oauth.ClientCredentials (oauthClient p)) cr u f)
           (set_calls (S (calls p)) p)).
Proof. reflexivity. Qed.

(** [decodeResponse] touches the targets only. *)
Lemma decodeResponse_frame resp d p :
  exists err m,
    decodeResponse jsonDecode resp d p = Ret err (set_targets m p).
Proof.
  unfold decodeResponse.
  destruct (negb (http.StatusCode resp =? 200)%Z).
  - exists (Some (ApiErrorPtr (newApiError resp))), (targets p).
    now destruct p.
  - unfold json_Decode. eauto.
Qed.

(** [apiGet] and [apiPost] make exactly one signed call, with the
    process-wide OAuth client and the credentials of the client, and
    touch the targets besides. *)
Lemma api_call_frame v (c : TwitterApi) u f d p :
  exists err m,
    (r <- oauthClient_call roundTrip v (Credentials c) u f ;;
     match r with
     | inr e => ret (Some (TransportError e))
     | inl resp => decodeResponse jsonDecode resp d
     end) p =
    Ret err
      (set_targets m
         (log (EvSigned v (oauth.ClientCredentials (oauthClient p))
                        (Credentials c) u f)
              (set_calls (S (calls p)) p))).
Proof.
  unfold bind. rewrite oauthClient_call_eq.
  set (p1 := log _ _).
  destruct (roundTrip _ _ _ _ _ _) as [resp|e].
  - apply decodeResponse_frame.
  - exists (Some (TransportError e)), (targets p1). now destruct p.
Qed.

Lemma apiGet_frame (c : TwitterApi) u f d p :
  exists err m,
    apiGet roundTrip jsonDecode c u f d p =
    Ret err
      (set_targets m
         (log (EvSigned GET (oauth.ClientCredentials (oauthClient p))
                        (Credentials c) u f)
              (set_calls (S (calls p)) p))).
Proof. apply api_call_frame. Qed.

Lemma apiPost_frame (c : TwitterApi) u f d p :
  exists err m,
    apiPost roundTrip jsonDecode c u f d p =
    Ret err
      (set_targets m
         (log (EvSigned POST (oauth.ClientCredentials (oauthClient p))
                        (Credentials c) u f)
              (set_calls (S (calls p)) p))).
Proof. apply api_call_frame. Qed.

Lemma execQuery_unsupported (c : TwitterApi) u f d m p :
  m <> _GET -> m <> _POST ->
  execQuery roundTrip jsonDecode c u f d m p =
  Ret (Some (errorString "HTTP method not yet supported")) p.
Proof.
  intros HG HP. unfold execQuery.
  destruct (Z.eqb_spec m _GET); [contradiction|].
  destruct (Z.eqb_spec m _POST); [contradiction|].
  reflexivity.
Qed.

(** The signed call a query asks for, when its method is supported. *)
Lemma execQuery_frame (c : TwitterApi) u f d m p :
  exists err tm,
    execQuery roundTrip jsonDecode c u f d m p =
    Ret err
      (if (m =? _GET)%Z then
         set_targets tm
           (log (EvSigned GET (oauth.ClientCredentials (oauthClient p))
                          (Credentials c) u f)
                (set_calls (S (calls p)) p))
       else if (m =? _POST)%Z then
         set_targets tm
           (log (EvSigned POST (oauth.ClientCredentials (oauthClient p))
                          (Credentials c) u f)
                (set_calls (S (calls p)) p))
       else p).
Proof.
  unfold execQuery.
  destruct (m =? _GET)%Z; [apply apiGet_frame|].
  destruct (m =? _POST)%Z; [apply apiPost_frame|].
  exists (Some (errorString "HTTP method not yet supported")), (targets p).
  reflexivity.
Qed.
End Executor.

(** Errors that are not a pointer to an [ApiError] are dropped by the
    classification, in whatever state: nothing is sent anywhere. *)
Lemma classify_not_ApiError RLC c q e s :
  (forall a, e <> ApiErrorPtr a) ->
  classify RLC c q (Some e) s = Ret tt s.
Proof. intros H. destruct e; try reflexivity. now destruct (H e). Qed.

(** So are the API errors that are not rate-limit rejections. *)
Lemma classify_not_rate_limited RLC c q a s :
  (RLC a (now s)).1 = false ->
  classify RLC c q (Some (ApiErrorPtr a)) s = Ret tt s.
Proof.
  intros H. unfold classify. unfold bind, time_Now. now rewrite H.
Qed.

(** C5. [decodeResponse], for every HTTP response.  On status 200 the body
    is decoded into the output target the caller supplied (the target
    holds what the decoder produced, every other target is as before) and
    the failure of the decoder, if any, is the error returned, an error
    the dispatcher never retries.  On any other status the result is an
    API error that carries the status code, the headers and the body of
    the response, the decoder is not run, and the process (the output
    target with it) is as before. *)
Theorem decodeResponse_by_status
    (jsonDecode : string -> option Val -> option Val * option string)
    (resp : http.Response) (d : nat) (p : Process) :
  (http.StatusCode resp = 200%Z ->
   exists p',
     decodeResponse jsonDecode resp d p =
       Ret (DecodeError <$> (jsonDecode (http.Body resp) (targets p !! d)).2) p' /\
     targets p' !! d = (jsonDecode (http.Body resp) (targets p !! d)).1 /\
     (forall d', d' <> d -> targets p' !! d' = targets p !! d') /\
     heap p' = heap p /\ trace p' = trace p /\
     forall RLC c q msg s,
       classify RLC c q (Some (DecodeError msg)) s = Ret tt s) /\
  (http.StatusCode resp <> 200%Z ->
   exists e,
     decodeResponse jsonDecode resp d p = Ret (Some (ApiErrorPtr e)) p /\
     StatusCode e = http.StatusCode resp /\
     Header e = http.Header resp /\
     Body e = http.Body resp).
Proof.
  split; intros Hs.
  - unfold decodeResponse. rewrite Hs. simpl. unfold json_Decode.
    eexists. split; [reflexivity|]. simpl.
    split; [apply lookup_partial_alter_eq|].
    split; [intros d' Hd; now apply lookup_partial_alter_ne|].
    repeat split.
  - exists (newApiError resp). unfold decodeResponse.
    destruct (Z.eqb_spec (http.StatusCode resp) 200); [contradiction|].
    simpl. repeat split.
Qed.

Lemma decodeResponse_by_status_witness :
  (exists p',
     decodeResponse Sample.decode
       {| http.StatusCode := 200; http.Header := []; http.Body := "{}" |}
       7 init_Process = Ret None p' /\
     targets p' !! 7 = Some "{}") /\
  (exists p',
     decodeResponse Sample.decode
       {| http.StatusCode := 200; http.Header := []; http.Body := "" |}
       7 init_Process = Ret (Some (DecodeError "EOF")) p' /\
     targets p' !! 7 = None) /\
  (exists e,
     decodeResponse Sample.decode
       {| http.StatusCode := 404; http.Header := []; http.Body := "{}" |}
       7 init_Process = Ret (Some (ApiErrorPtr e)) init_Process /\
     StatusCode e = 404%Z).
Proof.
  split; [|split].
  - destruct (decodeResponse_by_status Sample.decode
      {| http.StatusCode := 200; http.Header := []; http.Body := "{}" |}
      7 init_Process) as [H _].
    destruct (H eq_refl) as (p' & E & T & _).
    exists p'. split; [exact E|exact T].
  - destruct (decodeResponse_by_status Sample.decode
      {| http.StatusCode := 200; http.Header := []; http.Body := "" |}
      7 init_Process) as [H _].
    destruct (H eq_refl) as (p' & E & T & _).
    exists p'. split; [exact E|exact T].
  - destruct (decodeResponse_by_status Sample.decode
      {| http.StatusCode := 404; http.Header := []; http.Body := "{}" |}
      7 init_Process) as [_ H].
    assert (N : (404 <> 200)%Z) by discriminate.
    destruct (H N) as (e & E & S & _).
    exists e. split; [exact E|exact S].
Defined.

(** C6. [execQuery] makes one signed GET call when the method is [_GET]
    and one signed POST call when it is [_POST]; for every other method it
    makes no signed call, leaves the process as it was and returns the
    unsupported-method error, which the dispatcher does not retry: the
    classification sends nothing back to the queue, in whatever state. *)
Theorem execQuery_by_method
    (roundTrip : nat -> Verb -> oauth.Client -> oauth.Credentials ->
                 string -> Values -> http.Response + string)
    (jsonDecode : string -> option Val -> option Val * option string)
    (c : TwitterApi) (u : string) (f : Values) (d : nat) (m : Z)
    (p : Process) :
  (m = _GET ->
   execQuery roundTrip jsonDecode c u f d m p =
     apiGet roundTrip jsonDecode c u f d p /\
   signed_calls (trace (final (execQuery roundTrip jsonDecode c u f d m p))) =
     signed_calls (trace p) ++ [(GET, u, f)]) /\
  (m = _POST ->
   execQuery roundTrip jsonDecode c u f d m p =
     apiPost roundTrip jsonDecode c u f d p /\
   signed_calls (trace (final (execQuery roundTrip jsonDecode c u f d m p))) =
     signed_calls (trace p) ++ [(POST, u, f)]) /\
  (m <> _GET -> m <> _POST ->
   execQuery roundTrip jsonDecode c u f d m p =
     Ret (Some (errorString "HTTP method not yet supported")) p /\
   forall RLC cl q s,
     classify RLC cl q
       (Some (errorString "HTTP method not yet supported")) s = Ret tt s).
Proof.
  split; [|split].
  - intros ->. split; [reflexivity|].
    destruct (execQuery_frame roundTrip jsonDecode c u f d _GET p)
      as (err & tm & ->). simpl. now rewrite signed_calls_app.
  - intros ->. split; [reflexivity|].
    destruct (execQuery_frame roundTrip jsonDecode c u f d _POST p)
      as (err & tm & ->). simpl. now rewrite signed_calls_app.
  - intros HG HP. split; [now apply execQuery_unsupported|reflexivity].
Qed.

Lemma execQuery_by_method_witness :
  let transport := Sample.scripted [Sample.ok "{}"] in
  let c := {| Credentials := {| oauth.Token := "t"; oauth.Secret := "s" |};
              queryQueue := make_chan 0; bucket := None |} in
  signed_calls (trace (final
    (execQuery transport Sample.decode c "u" [] 1 _GET init_Process))) =
    [(GET, "u", [])] /\
  signed_calls (trace (final
    (execQuery transport Sample.decode c "u" [] 1 _POST init_Process))) =
    [(POST, "u", [])] /\
  execQuery transport Sample.decode c "u" [] 1 2 init_Process =
    Ret (Some (errorString "HTTP method not yet supported")) init_Process.
Proof.
  intros transport c.
  pose proof (execQuery_by_method transport Sample.decode c "u" [] 1 _GET
                init_Process) as (HG & _ & _).
  pose proof (execQuery_by_method transport Sample.decode c "u" [] 1 _POST
                init_Process) as (_ & HP & _).
  pose proof (execQuery_by_method transport Sample.decode c "u" [] 1 2
                init_Process) as (_ & _ & HU).
  split; [exact (proj2 (HG eq_refl))|].
  split; [exact (proj2 (HP eq_refl))|].
  apply HU; discriminate.
Defined.

(** ** The nil bucket *)

(** C9. On a client whose bucket is nil, [SetDelay] and [GetDelay] panic
    and leave the client as it was; they neither return nor act as a
    no-op.  The [Drain] of the dispatcher is not guarded either: when a
    rate-limit rejection has been put back on a queue that has room, the
    dispatcher sleeps and then panics on the nil bucket.  The clients that
    [NewTwitterApi] returns and those on which [DisableRateLimiting] was
    called are in this case. *)
Theorem nil_bucket_panics (c : nat) (a : TwitterApi) (p : Process) :
  heap p !! c = Some a ->
  bucket a = None ->
  (forall t, SetDelay c t p = Panic p) /\
  GetDelay c p = Panic p /\
  bucket_Drain c p = Panic p /\
  (forall RLC e q,
     (RLC e (now p)).1 = true ->
     (length (pending (queryQueue a)) < cap (queryQueue a))%nat ->
     exists p',
       classify RLC c q (Some (ApiErrorPtr e)) p = Panic p' /\
       trace p' = trace p ++ [EvRequeue c q; EvSleep (RLC e (now p)).2]) /\
  (forall t, (DisableRateLimiting c ;;; SetDelay c t) p =
             Panic (final (DisableRateLimiting c p))) /\
  (forall tok sec t,
     (c' <- NewTwitterApi tok sec ;; SetDelay c' t) p =
     Panic (final (NewTwitterApi tok sec p))).
Proof.
  intros Hc Hb.
  split; [|split; [|split; [|split; [|split]]]].
  - intros t. unfold SetDelay. rewrite (bind_Ret _ _ _ _ _ (load_Some _ _ _ Hc)).
    now rewrite Hb.
  - unfold GetDelay. rewrite (bind_Ret _ _ _ _ _ (load_Some _ _ _ Hc)).
    now rewrite Hb.
  - unfold bucket_Drain. rewrite (bind_Ret _ _ _ _ _ (load_Some _ _ _ Hc)).
    now rewrite Hb.
  - intros RLC e q Hrl Hroom.
    unfold classify, bind, time_Now. rewrite Hrl.
    unfold send_queryQueue, bind. rewrite (load_Some _ _ _ Hc).
    apply Nat.ltb_lt in Hroom. rewrite Hroom. simpl.
    unfold bucket_Drain, bind, load. simpl.
    rewrite list_lookup_insert_eq by (eapply lookup_lt_Some; eassumption).
    simpl. rewrite Hb. eexists. split; [reflexivity|].
    simpl. now rewrite <- app_assoc.
  - intros t. unfold DisableRateLimiting, SetDelay, bind.
    rewrite (load_Some _ _ _ Hc). simpl. unfold load. simpl.
    rewrite list_lookup_insert_eq by (eapply lookup_lt_Some; eassumption).
    reflexivity.
  - intros tok sec t. unfold NewTwitterApi, SetDelay, bind. simpl.
    unfold load. simpl.
    rewrite lookup_app_r by reflexivity.
    rewrite Nat.sub_diag. reflexivity.
Qed.

Lemma nil_bucket_panics_witness :
  let p := final (NewTwitterApi "tok" "sec" init_Process) in
  let buffered :=
    set_heap [{| Credentials := {| oauth.Token := "tok"; oauth.Secret := "sec" |};
                 queryQueue := make_chan 1; bucket := None |}] init_Process in
  (SetDelay 0 5%Z p = Panic p /\ GetDelay 0 p = Panic p /\
   bucket_Drain 0 p = Panic p) /\
  exists p',
    classify Sample.rateLimitCheck 0 (Sample.get "u" 1 11)
      (Some (ApiErrorPtr
         {| StatusCode := 429; Header := [("X-Rate-Limit-Reset", ["100"])];
            Body := "" |})) buffered = Panic p' /\
    trace p' = [EvRequeue 0 (Sample.get "u" 1 11); EvSleep 100%Z].
Proof.
  intros p buffered. split.
  - destruct (nil_bucket_panics 0 _ p eq_refl eq_refl) as (H1 & H2 & H3 & _).
    exact (conj (H1 5%Z) (conj H2 H3)).
  - destruct (nil_bucket_panics 0 _ buffered eq_refl eq_refl)
      as (_ & _ & _ & H4 & _).
    apply (H4 Sample.rateLimitCheck
             {| StatusCode := 429; Header := [("X-Rate-Limit-Reset", ["100"])];
                Body := "" |} (Sample.get "u" 1 11)).
    + reflexivity.
    + simpl. lia.
Defined.

(** ** Invariants of the process *)

#[local] Instance inv_rel_preorder I P : PreOrder (inv_rel I P).
Proof.
  split.
  - intros p HI. split; [assumption|]. exists []. now rewrite app_nil_r.
  - intros p1 p2 p3 H12 H23 HI.
    destruct (H12 HI) as (HI2 & evs1 & E1 & F1).
    destruct (H23 HI2) as (HI3 & evs2 & E2 & F2).
    split; [assumption|]. exists (evs1 ++ evs2).
    rewrite E2, E1, app_assoc. split; [reflexivity|].
    apply Forall_app; now split.
Qed.

(** The trace part of [inv_rel], closed by reading the events off the
    final state. *)
Ltac trace_ext :=
  first
    [ exists []; split; [now rewrite app_nil_r|constructor]
    | rewrite <- ?app_assoc; eexists; split;
      [reflexivity|repeat constructor; simpl; eauto] ].

(** Unfolds an operation down to the state it ends in. *)
Ltac run_op :=
  cbv [bind ret panic park emit load store alloc go_throttledQuery time_Now
       resume_at sleep_until send_response];
  repeat match goal with
  | |- context [match heap ?p !! ?c with _ => _ end] =>
      destruct (heap p !! c) eqn:?
  | |- context [match bucket ?a with _ => _ end] => destruct (bucket a) eqn:?
  | |- context [match pending ?a with _ => _ end] => destruct (pending a) eqn:?
  | |- context [if ?b then _ else _] => destruct b eqn:?
  end;
  simpl.

Create HintDb inv discriminated.

Ltac inv_step :=
  match goal with
  | |- preserves _ (bind _ _) =>
      apply preserves_bind; [typeclasses eauto| |intros]
  | |- preserves _ (meanwhile _ _) =>
      apply preserves_meanwhile; [typeclasses eauto| |]
  | |- preserves _ (ret _) => apply preserves_ret; typeclasses eauto
  | |- preserves _ panic => apply preserves_panic; typeclasses eauto
  | |- preserves _ (load _) => apply preserves_load; typeclasses eauto
  | |- preserves _ time_Now => apply preserves_time_Now; typeclasses eauto
  | |- preserves _ (match ?x with _ => _ end) => destruct x
  | |- preserves _ _ => solve [eauto with inv]
  end.
Ltac inv_frame := repeat inv_step.

(** *** The consumer credentials *)

Section ConsumerCredentials.
Variable roundTrip :
  nat -> Verb -> oauth.Client -> oauth.Credentials -> string -> Values ->
  http.Response + string.
Variable jsonDecode : string -> option Val -> option Val * option string.
Variable RateLimitCheck : ApiError -> Time -> bool * Time.
Variable Q : oauth.Credentials -> Prop.

Local Abbreviation R := (inv_rel (consumer_is Q) (signed_with Q)).

Ltac consumer_op :=
  intros p HI; run_op; (split; [exact HI|trace_ext]).

Lemma consumer_recv c : preserves R (recv_queryQueue c).
Proof. unfold recv_queryQueue. consumer_op. Qed.

Lemma consumer_send c q : preserves R (send_queryQueue c q).
Proof. unfold send_queryQueue. consumer_op. Qed.

Lemma consumer_submit c q : preserves R (submit c q).
Proof. unfold submit. consumer_op. Qed.

Lemma consumer_response ch r : preserves R (send_response ch r).
Proof. consumer_op. Qed.

Lemma consumer_SpendToken c n : preserves R (bucket_SpendToken c n).
Proof. unfold bucket_SpendToken. consumer_op. Qed.

Lemma consumer_Drain c : preserves R (bucket_Drain c).
Proof. unfold bucket_Drain. consumer_op. Qed.

Lemma consumer_sleep t : preserves R (sleep_until t).
Proof. consumer_op. Qed.

Lemma consumer_New tok sec : preserves R (NewTwitterApi tok sec).
Proof. unfold NewTwitterApi. consumer_op. Qed.

Lemma consumer_Enable c r b : preserves R (EnableRateLimiting c r b).
Proof. unfold EnableRateLimiting. consumer_op. Qed.

Lemma consumer_Disable c : preserves R (DisableRateLimiting c).
Proof. unfold DisableRateLimiting. consumer_op. Qed.

Lemma consumer_SetDelay c t : preserves R (SetDelay c t).
Proof. unfold SetDelay. consumer_op. Qed.

Lemma consumer_GetDelay c : preserves R (GetDelay c).
Proof. unfold GetDelay. consumer_op. Qed.

Lemma consumer_execQuery a u f d m :
  preserves R (execQuery roundTrip jsonDecode a u f d m).
Proof.
  intros p HI.
  destruct (execQuery_frame roundTrip jsonDecode a u f d m p)
    as (err & tm & ->).
  destruct (m =? _GET)%Z; [|destruct (m =? _POST)%Z]; simpl;
    (split; [exact HI|trace_ext]).
Qed.

Hint Resolve consumer_recv consumer_send consumer_submit consumer_response
  consumer_SpendToken consumer_Drain consumer_sleep consumer_New
  consumer_Enable consumer_Disable consumer_SetDelay consumer_GetDelay
  consumer_execQuery : inv.

Lemma consumer_turn c :
  preserves R (throttledQuery_turn roundTrip jsonDecode RateLimitCheck c).
Proof.
  unfold throttledQuery_turn, throttledQuery_body, gate, classify.
  inv_frame.
Qed.

Lemma consumer_act c a :
  preserves R (act roundTrip jsonDecode RateLimitCheck c a).
Proof.
  destruct a; simpl; [apply consumer_submit|].
  assert (H : preserves R
    (throttledQuery_turn roundTrip jsonDecode RateLimitCheck c ;;; ret tt))
    by (inv_frame; apply consumer_turn).
  intros p. destruct (bool_decide _); [|apply H].
  intros HI. split; [exact HI|trace_ext].
Qed.

(** The consumer credentials stay as they are, and sign every call, for
    as long as no operation sets them to something else. *)
Lemma consumer_steps (l : list Op) :
  Forall (fun o =>
            match o with
            | OpSetConsumerKey k =>
                forall cr, Q cr ->
                  Q {| oauth.Token := k; oauth.Secret := oauth.Secret cr |}
            | OpSetConsumerSecret s =>
                forall cr, Q cr ->
                  Q {| oauth.Token := oauth.Token cr; oauth.Secret := s |}
            | _ => True
            end) l ->
  preserves R (steps roundTrip jsonDecode RateLimitCheck l).
Proof.
  induction 1 as [|o l Ho _ IH]; simpl; [inv_frame|].
  apply preserves_meanwhile; [typeclasses eauto| |exact IH].
  destruct o; simpl; try (inv_frame; fail).
  - intros p HI. simpl. split; [apply Ho, HI|trace_ext].
  - intros p HI. simpl. split; [apply Ho, HI|trace_ext].
  - apply consumer_act.
Qed.
End ConsumerCredentials.

(** C8. [SetConsumerKey] and [SetConsumerSecret] write into the one
    [oauthClient] of the process.  Neither changes a client (the clients,
    their queues and buckets, and the dispatchers are as before).  After
    [SetConsumerKey k], whatever the goroutines of the process do next
    (new clients, configuration calls, submissions, dispatcher turns of
    any client), every signed call is made with consumer key [k] until
    [SetConsumerKey] is called again; likewise for the secret. *)
Theorem consumer_credentials_process_wide
    (roundTrip : nat -> Verb -> oauth.Client -> oauth.Credentials ->
                 string -> Values -> http.Response + string)
    (jsonDecode : string -> option Val -> option Val * option string)
    (RateLimitCheck : ApiError -> Time -> bool * Time)
    (p : Process) :
  (forall k,
     exists p',
       SetConsumerKey k p = Ret tt p' /\
       oauth.Token (oauth.ClientCredentials (oauthClient p')) = k /\
       heap p' = heap p /\ goroutines p' = goroutines p /\
       forall ops,
         forallb (fun o => negb (is_SetConsumerKey o)) ops = true ->
         exists evs,
           trace (final (steps roundTrip jsonDecode RateLimitCheck ops p')) =
             trace p ++ evs /\
           Forall (signed_with (fun cr => oauth.Token cr = k)) evs) /\
  (forall s,
     exists p',
       SetConsumerSecret s p = Ret tt p' /\
       oauth.Secret (oauth.ClientCredentials (oauthClient p')) = s /\
       heap p' = heap p /\ goroutines p' = goroutines p /\
       forall ops,
         forallb (fun o => negb (is_SetConsumerSecret o)) ops = true ->
         exists evs,
           trace (final (steps roundTrip jsonDecode RateLimitCheck ops p')) =
             trace p ++ evs /\
           Forall (signed_with (fun cr => oauth.Secret cr = s)) evs).
Proof.
  split.
  - intros k. eexists. split; [reflexivity|]. repeat split.
    intros ops Hops.
    refine (proj2 (consumer_steps roundTrip jsonDecode RateLimitCheck
                     (fun cr => oauth.Token cr = k) ops _ _ _)).
    + apply Forall_forall. intros o Ho. apply list_elem_of_In in Ho.
      rewrite forallb_forall in Hops. specialize (Hops o Ho).
      destruct o; simpl in *; trivial. discriminate.
    + reflexivity.
  - intros s. eexists. split; [reflexivity|]. repeat split.
    intros ops Hops.
    refine (proj2 (consumer_steps roundTrip jsonDecode RateLimitCheck
                     (fun cr => oauth.Secret cr = s) ops _ _ _)).
    + apply Forall_forall. intros o Ho. apply list_elem_of_In in Ho.
      rewrite forallb_forall in Hops. specialize (Hops o Ho).
      destruct o; simpl in *; trivial. discriminate.
    + reflexivity.
Qed.

Lemma consumer_credentials_process_wide_witness :
  let ops :=
    [OpNewTwitterApi "tok" "sec"; OpNewTwitterApi "tok2" "sec2";
     OpSetConsumerSecret "shh";
     OpAct 0 (Submit (Sample.get "u" 1 11));
     OpAct 1 (Submit (Sample.post "v" 2 12));
     OpAct 1 Turn; OpAct 0 Turn] in
  exists evs,
    trace (final (steps (Sample.scripted [Sample.ok "{}"; Sample.ok "{}"])
                    Sample.decode Sample.rateLimitCheck ops
                    (final (SetConsumerKey "key" init_Process)))) = evs /\
    signed_calls evs = [(POST, "v", []); (GET, "u", [])] /\
    Forall (signed_with (fun cr => oauth.Token cr = "key")) evs.
Proof.
  intros ops.
  destruct (consumer_credentials_process_wide
              (Sample.scripted [Sample.ok "{}"; Sample.ok "{}"])
              Sample.decode Sample.rateLimitCheck init_Process) as [HK _].
  destruct (HK "key") as (p' & E & _ & _ & _ & H).
  injection E as <-.
  destruct (H ops eq_refl) as (evs & Et & F).
  exists evs. split; [exact Et|]. split; [|exact F].
  simpl in Et. rewrite <- Et. reflexivity.
Defined.

(** *** A client without a bucket *)

Lemma bucket_of_insert_eq (c : nat) (a a' : TwitterApi) (h : list TwitterApi) :
  h !! c = Some a ->
  bucket <$> <[c := a']> h !! c = Some (bucket a').
Proof.
  intros E. rewrite list_lookup_insert_eq; [reflexivity|].
  eapply lookup_lt_Some; eassumption.
Qed.

Lemma bucket_of_insert_ne (c c' : nat) (a' : TwitterApi) (h : list TwitterApi) :
  c' <> c ->
  bucket <$> <[c' := a']> h !! c = bucket <$> h !! c.
Proof. intros N. now rewrite list_lookup_insert_ne. Qed.

Lemma bucket_of_app (c : nat) (a' : TwitterApi) (h : list TwitterApi) :
  bucket <$> h !! c = Some None ->
  bucket <$> (h ++ [a']) !! c = Some None.
Proof.
  intros E. rewrite lookup_app_l; [assumption|].
  destruct (h !! c) eqn:L; [|discriminate].
  eapply lookup_lt_Some; eassumption.
Qed.

Section NilBucket.
Variable roundTrip :
  nat -> Verb -> oauth.Client -> oauth.Credentials -> string -> Values ->
  http.Response + string.
Variable jsonDecode : string -> option Val -> option Val * option string.
Variable RateLimitCheck : ApiError -> Time -> bool * Time.
Variable c : nat.

Local Abbreviation R :=
  (inv_rel (fun p => bucket_of c p = Some None)
           (fun e => spends c e = false)).

(** After [run_op]: the bucket of [c] is still nil, and no token of [c]
    was spent. *)
Ltac nil_state :=
  match goal with
  | |- bucket <$> <[?c' := _]> _ !! _ = _ =>
      destruct (decide (c' = c)) as [->|?];
      [erewrite bucket_of_insert_eq by eassumption;
       match goal with
       | H : heap ?p !! c = Some _, HI : bucket <$> heap ?p !! c = _ |- _ =>
           rewrite H in HI
       end; simpl in *; congruence
      |rewrite bucket_of_insert_ne by assumption; assumption]
  | |- bucket <$> (_ ++ [_]) !! _ = _ => now apply bucket_of_app
  | |- _ => assumption
  end.

Ltac nil_op :=
  intros p HI; unfold bucket_of in *; run_op;
  (split; [nil_state|trace_ext]).

Lemma nil_recv c' : preserves R (recv_queryQueue c').
Proof. unfold recv_queryQueue. nil_op. Qed.

Lemma nil_send c' q : preserves R (send_queryQueue c' q).
Proof. unfold send_queryQueue. nil_op. Qed.

Lemma nil_submit c' q : preserves R (submit c' q).
Proof. unfold submit. nil_op. Qed.

Lemma nil_response ch r : preserves R (send_response ch r).
Proof. nil_op. Qed.

Lemma nil_Drain c' : preserves R (bucket_Drain c').
Proof.
  unfold bucket_Drain. intros p HI; unfold bucket_of in *; run_op;
    (split; [|trace_ext]); try assumption.
  destruct (decide (c' = c)) as [->|?].
  - rewrite Heqo in HI. simpl in HI. congruence.
  - now rewrite bucket_of_insert_ne.
Qed.

Lemma nil_SpendToken c' n : preserves R (bucket_SpendToken c' n).
Proof.
  unfold bucket_SpendToken. intros p HI; unfold bucket_of in *; run_op;
    try (split; [assumption|trace_ext]).
  destruct (decide (c' = c)) as [->|N].
  - rewrite Heqo in HI. simpl in HI. congruence.
  - split; [now rewrite bucket_of_insert_ne|].
    eexists [_]. split; [reflexivity|].
    repeat constructor. simpl. now apply Nat.eqb_neq.
Qed.

Lemma nil_sleep t : preserves R (sleep_until t).
Proof. nil_op. Qed.

Lemma nil_New tok sec : preserves R (NewTwitterApi tok sec).
Proof. unfold NewTwitterApi. nil_op. Qed.

Lemma nil_Enable c' r b :
  c' <> c -> preserves R (EnableRateLimiting c' r b).
Proof.
  intros N. unfold EnableRateLimiting.
  intros p HI; unfold bucket_of in *; run_op;
    (split; [|trace_ext]); try assumption.
  now rewrite bucket_of_insert_ne.
Qed.

Lemma nil_Disable c' : preserves R (DisableRateLimiting c').
Proof. unfold DisableRateLimiting. nil_op. Qed.

Lemma nil_SetDelay c' t : preserves R (SetDelay c' t).
Proof.
  unfold SetDelay. intros p HI; unfold bucket_of in *; run_op;
    (split; [|trace_ext]); try assumption.
  destruct (decide (c' = c)) as [->|?].
  - rewrite Heqo in HI. simpl in HI. congruence.
  - now rewrite bucket_of_insert_ne.
Qed.

Lemma nil_GetDelay c' : preserves R (GetDelay c').
Proof. unfold GetDelay. nil_op. Qed.

Lemma nil_SetConsumerKey k : preserves R (SetConsumerKey k).
Proof. nil_op. Qed.

Lemma nil_SetConsumerSecret s : preserves R (SetConsumerSecret s).
Proof. nil_op. Qed.

Lemma nil_execQuery a u f d m :
  preserves R (execQuery roundTrip jsonDecode a u f d m).
Proof.
  intros p HI.
  destruct (execQuery_frame roundTrip jsonDecode a u f d m p)
    as (err & tm & ->).
  destruct (m =? _GET)%Z; [|destruct (m =? _POST)%Z]; simpl;
    (split; [exact HI|trace_ext]).
Qed.

Hint Resolve nil_recv nil_send nil_submit nil_response nil_Drain
  nil_SpendToken nil_sleep nil_New nil_Disable nil_SetDelay nil_GetDelay
  nil_SetConsumerKey nil_SetConsumerSecret nil_execQuery : inv.

Lemma nil_body c' q :
  preserves R
    (throttledQuery_body roundTrip jsonDecode RateLimitCheck c' q).
Proof. unfold throttledQuery_body, gate, classify. inv_frame. Qed.

Lemma nil_turn c' :
  preserves R (throttledQuery_turn roundTrip jsonDecode RateLimitCheck c').
Proof. unfold throttledQuery_turn. inv_frame. apply nil_body. Qed.

Lemma nil_act c' a :
  preserves R (act roundTrip jsonDecode RateLimitCheck c' a).
Proof.
  destruct a; simpl; [apply nil_submit|].
  assert (H : preserves R
    (throttledQuery_turn roundTrip jsonDecode RateLimitCheck c' ;;; ret tt))
    by (inv_frame; apply nil_turn).
  intros p. destruct (bool_decide _); [|apply H].
  intros HI. split; [exact HI|trace_ext].
Qed.

(** The bucket of [c] stays nil, and no token of [c] is spent, for as
    long as [EnableRateLimiting] is not called on [c]. *)
Lemma nil_steps (l : list Op) :
  forallb (fun o => negb (enables c o)) l = true ->
  preserves R (steps roundTrip jsonDecode RateLimitCheck l).
Proof.
  induction l as [|o l IH]; simpl; [intros _; inv_frame|].
  intros [Ho Hl]%andb_prop.
  apply preserves_meanwhile; [typeclasses eauto| |exact (IH Hl)].
  destruct o; simpl; try (inv_frame; fail).
  - apply nil_Enable. simpl in Ho.
    intros ->. now rewrite Nat.eqb_refl in Ho.
  - apply nil_act.
Qed.
End NilBucket.

(** *** Executing and classifying spend no token *)

Section AfterTheGate.
Variable roundTrip :
  nat -> Verb -> oauth.Client -> oauth.Credentials -> string -> Values ->
  http.Response + string.
Variable jsonDecode : string -> option Val -> option Val * option string.
Variable RateLimitCheck : ApiError -> Time -> bool * Time.

Local Abbreviation R :=
  (inv_rel (fun _ => True) (fun e => is_SpendToken e = false)).

Ltac quiet_op := intros p HI; run_op; (split; [exact I|trace_ext]).

Lemma quiet_send c q : preserves R (send_queryQueue c q).
Proof. unfold send_queryQueue. quiet_op. Qed.

Lemma quiet_response ch r : preserves R (send_response ch r).
Proof. quiet_op. Qed.

Lemma quiet_Drain c : preserves R (bucket_Drain c).
Proof. unfold bucket_Drain. quiet_op. Qed.

Lemma quiet_sleep t : preserves R (sleep_until t).
Proof. quiet_op. Qed.

Lemma quiet_execQuery a u f d m :
  preserves R (execQuery roundTrip jsonDecode a u f d m).
Proof.
  intros p HI.
  destruct (execQuery_frame roundTrip jsonDecode a u f d m p)
    as (err & tm & ->).
  destruct (m =? _GET)%Z; [|destruct (m =? _POST)%Z]; simpl;
    (split; [exact I|trace_ext]).
Qed.

Hint Resolve quiet_send quiet_response quiet_Drain quiet_sleep
  quiet_execQuery : inv.

Lemma quiet_after_gate c q :
  preserves R
    (a <- load c ;;
     err <- execQuery roundTrip jsonDecode a (url q) (form q) (data q)
              (method q) ;;
     classify RateLimitCheck c q err).
Proof. unfold classify. inv_frame. Qed.
End AfterTheGate.

(** ** The gate *)

Lemma gate_None c a p :
  heap p !! c = Some a -> bucket a = None -> gate c p = Ret tt p.
Proof.
  intros Hc Hb. unfold gate.
  rewrite (bind_Ret _ _ _ _ _ (load_Some _ _ _ Hc)). now rewrite Hb.
Qed.

Lemma gate_Some c a b p :
  heap p !! c = Some a -> bucket a = Some b ->
  gate c p =
  Ret tt (log (EvSpendToken c 1)
            (set_now (tokenbucket.SpendToken 1 b (now p)).2
               (set_heap
                  (<[c := set_bucket
                            (Some (tokenbucket.SpendToken 1 b (now p)).1) a]>
                     (heap p)) p))).
Proof.
  intros Hc Hb. unfold gate.
  rewrite (bind_Ret _ _ _ _ _ (load_Some _ _ _ Hc)).
  rewrite Hb. unfold bucket_SpendToken.
  rewrite (bind_Ret _ _ _ _ _ (load_Some _ _ _ Hc)).
  rewrite Hb. reflexivity.
Qed.

(** Without a bucket the body of the loop is [execQuery] followed by the
    classification. *)
Lemma body_without_bucket roundTrip jsonDecode RateLimitCheck c q a p :
  heap p !! c = Some a -> bucket a = None ->
  throttledQuery_body roundTrip jsonDecode RateLimitCheck c q p =
  (err <- execQuery roundTrip jsonDecode a (url q) (form q) (data q)
            (method q) ;;
   classify RateLimitCheck c q err) p.
Proof.
  intros Hc Hb. unfold throttledQuery_body.
  rewrite (bind_Ret _ _ _ _ _ (gate_None c a p Hc Hb)).
  now rewrite (bind_Ret _ _ _ _ _ (load_Some _ _ _ Hc)).
Qed.

(** C4. The dispatcher takes one token before it executes the query it
    received if and only if the client has a bucket.  Without a bucket the
    gate is a no-op: the state is untouched, the query goes straight to
    [execQuery], no token is spent in the whole turn and the bucket is
    still absent after it.  With a bucket, the gate spends one token of
    that bucket, this is the first thing the turn does, and nothing after
    it spends another. *)
Theorem gate_iff_bucket
    (roundTrip : nat -> Verb -> oauth.Client -> oauth.Credentials ->
                 string -> Values -> http.Response + string)
    (jsonDecode : string -> option Val -> option Val * option string)
    (RateLimitCheck : ApiError -> Time -> bool * Time)
    (c : nat) (q : query) (p : Process) (a : TwitterApi) :
  heap p !! c = Some a ->
  let o := throttledQuery_body roundTrip jsonDecode RateLimitCheck c q p in
  (bucket a = None ->
   gate c p = Ret tt p /\
   o = (err <- execQuery roundTrip jsonDecode a (url q) (form q) (data q)
                 (method q) ;;
        classify RateLimitCheck c q err) p /\
   bucket_of c (final o) = Some None /\
   exists evs,
     trace (final o) = trace p ++ evs /\
     Forall (fun e => is_SpendToken e = false) evs) /\
  (forall b, bucket a = Some b ->
   exists p1,
     gate c p = Ret tt p1 /\
     bucket_of c p1 = Some (Some (tokenbucket.SpendToken 1 b (now p)).1) /\
     now p1 = (tokenbucket.SpendToken 1 b (now p)).2 /\
     trace p1 = trace p ++ [EvSpendToken c 1] /\
     exists rest,
       trace (final o) = trace p ++ EvSpendToken c 1 :: rest /\
       Forall (fun e => is_SpendToken e = false) rest).
Proof.
  intros Hc o. split.
  - intros Hb.
    pose proof (gate_None c a p Hc Hb) as Hg.
    assert (Ho : o = (err <- execQuery roundTrip jsonDecode a (url q) (form q)
                               (data q) (method q) ;;
                      classify RateLimitCheck c q err) p).
    { unfold o, throttledQuery_body.
      rewrite (bind_Ret _ _ _ _ _ Hg).
      now rewrite (bind_Ret _ _ _ _ _ (load_Some _ _ _ Hc)). }
    split; [exact Hg|]. split; [exact Ho|].
    assert (Hnil : bucket_of c p = Some None)
      by (unfold bucket_of; rewrite Hc; simpl; now rewrite Hb).
    split.
    + apply (nil_body roundTrip jsonDecode RateLimitCheck c c q p Hnil).
    + pose proof (quiet_after_gate roundTrip jsonDecode RateLimitCheck c q p I)
        as [_ H].
      rewrite (bind_Ret _ _ _ _ _ (load_Some _ _ _ Hc)) in H.
      rewrite Ho. exact H.
  - intros b Hb.
    assert (Hlt : c < length (heap p)) by (eapply lookup_lt_Some; eassumption).
    pose proof (gate_Some c a b p Hc Hb) as Hg.
    set (p1 := log _ _) in Hg.
    exists p1. split; [exact Hg|].
    split.
    { unfold bucket_of. simpl. now rewrite list_lookup_insert_eq. }
    split; [reflexivity|]. split; [reflexivity|].
    unfold o, throttledQuery_body.
    rewrite (bind_Ret _ _ _ _ _ Hg).
    pose proof (quiet_after_gate roundTrip jsonDecode RateLimitCheck
                  c q p1 I) as [_ (rest & Hr & Fr)].
    exists rest. split; [|exact Fr].
    rewrite Hr. simpl. now rewrite <- app_assoc.
Qed.

Lemma gate_iff_bucket_witness :
  let transport := Sample.scripted [Sample.ok "{}"] in
  let q := Sample.get "u" 1 11 in
  let p0 := final (NewTwitterApi "tok" "sec" init_Process) in
  let p1 := final (EnableRateLimiting 0 1%Z 5%Z p0) in
  (gate 0 p0 = Ret tt p0 /\
   exists evs,
     trace (final (throttledQuery_body transport Sample.decode
                     Sample.rateLimitCheck 0 q p0)) = trace p0 ++ evs /\
     Forall (fun e => is_SpendToken e = false) evs) /\
  (exists rest,
     trace (final (throttledQuery_body transport Sample.decode
                     Sample.rateLimitCheck 0 q p1)) =
       trace p1 ++ EvSpendToken 0 1 :: rest /\
     Forall (fun e => is_SpendToken e = false) rest).
Proof.
  intros transport q p0 p1. split.
  - destruct (gate_iff_bucket transport Sample.decode Sample.rateLimitCheck
                0 q p0 _ eq_refl) as [H _].
    destruct (H eq_refl) as (Hg & _ & _ & Hev).
    exact (conj Hg Hev).
  - destruct (gate_iff_bucket transport Sample.decode Sample.rateLimitCheck
                0 q p1 _ eq_refl) as [_ H].
    destruct (H _ eq_refl) as (p' & _ & _ & _ & _ & Hrest).
    exact Hrest.
Defined.

(** ** New clients *)

Section Dispatchers.
Variable roundTrip :
  nat -> Verb -> oauth.Client -> oauth.Credentials -> string -> Values ->
  http.Response + string.
Variable jsonDecode : string -> option Val -> option Val * option string.
Variable RateLimitCheck : ApiError -> Time -> bool * Time.

Local Abbreviation R := (inv_rel dispatchers_ok (fun _ => True)).

Ltac ok_state :=
  unfold dispatchers_ok in *; simpl;
  rewrite ?length_insert; try assumption.

Ltac ok_op := intros p HI; run_op; (split; [ok_state|trace_ext]).

Lemma ok_recv c : preserves R (recv_queryQueue c).
Proof. unfold recv_queryQueue. ok_op. Qed.

Lemma ok_send c q : preserves R (send_queryQueue c q).
Proof. unfold send_queryQueue. ok_op. Qed.

Lemma ok_submit c q : preserves R (submit c q).
Proof. unfold submit. ok_op. Qed.

Lemma ok_response ch r : preserves R (send_response ch r).
Proof. ok_op. Qed.

Lemma ok_Drain c : preserves R (bucket_Drain c).
Proof. unfold bucket_Drain. ok_op. Qed.

Lemma ok_SpendToken c n : preserves R (bucket_SpendToken c n).
Proof. unfold bucket_SpendToken. ok_op. Qed.

Lemma ok_sleep t : preserves R (sleep_until t).
Proof. ok_op. Qed.

Lemma ok_New tok sec : preserves R (NewTwitterApi tok sec).
Proof.
  unfold NewTwitterApi. intros p HI; run_op. split; [|trace_ext].
  unfold dispatchers_ok in *. simpl. rewrite length_app. simpl.
  apply Forall_app. split.
  - eapply Forall_impl; [exact HI|]. simpl. intros; lia.
  - repeat constructor. lia.
Qed.

Lemma ok_Enable c r b : preserves R (EnableRateLimiting c r b).
Proof. unfold EnableRateLimiting. ok_op. Qed.

Lemma ok_Disable c : preserves R (DisableRateLimiting c).
Proof. unfold DisableRateLimiting. ok_op. Qed.

Lemma ok_SetDelay c t : preserves R (SetDelay c t).
Proof. unfold SetDelay. ok_op. Qed.

Lemma ok_GetDelay c : preserves R (GetDelay c).
Proof. unfold GetDelay. ok_op. Qed.

Lemma ok_SetConsumerKey k : preserves R (SetConsumerKey k).
Proof. ok_op. Qed.

Lemma ok_SetConsumerSecret s : preserves R (SetConsumerSecret s).
Proof. ok_op. Qed.

Lemma ok_execQuery a u f d m :
  preserves R (execQuery roundTrip jsonDecode a u f d m).
Proof.
  intros p HI.
  destruct (execQuery_frame roundTrip jsonDecode a u f d m p)
    as (err & tm & ->).
  destruct (m =? _GET)%Z; [|destruct (m =? _POST)%Z]; simpl;
    (split; [exact HI|trace_ext]).
Qed.

Hint Resolve ok_recv ok_send ok_submit ok_response ok_Drain ok_SpendToken
  ok_sleep ok_New ok_Enable ok_Disable ok_SetDelay ok_GetDelay
  ok_SetConsumerKey ok_SetConsumerSecret ok_execQuery : inv.

Lemma ok_turn c :
  preserves R (throttledQuery_turn roundTrip jsonDecode RateLimitCheck c).
Proof.
  unfold throttledQuery_turn, throttledQuery_body, gate, classify.
  inv_frame.
Qed.

Lemma ok_act c a :
  preserves R (act roundTrip jsonDecode RateLimitCheck c a).
Proof.
  destruct a; simpl; [apply ok_submit|].
  assert (H : preserves R
    (throttledQuery_turn roundTrip jsonDecode RateLimitCheck c ;;; ret tt))
    by (inv_frame; apply ok_turn).
  intros p. destruct (bool_decide _); [|apply H].
  intros HI. split; [exact HI|trace_ext].
Qed.

(** Whatever the process does, its dispatchers belong to its clients. *)
Lemma ok_steps (l : list Op) :
  preserves R (steps roundTrip jsonDecode RateLimitCheck l).
Proof.
  induction l as [|o l IH]; simpl; [inv_frame|].
  apply preserves_meanwhile; [typeclasses eauto| |exact IH].
  destruct o; simpl; try (inv_frame; fail).
  apply ok_act.
Qed.

Lemma dispatchers_ok_reachable (l : list Op) :
  dispatchers_ok
    (final (steps roundTrip jsonDecode RateLimitCheck l init_Process)).
Proof. apply ok_steps. constructor. Qed.
End Dispatchers.

Lemma filter_eqb_fresh (c : nat) (l : list nat) :
  Forall (fun g => g < c) l -> List.filter (Nat.eqb c) l = [].
Proof.
  induction 1 as [|g l Hg _ IH]; simpl; [reflexivity|].
  destruct (Nat.eqb_spec c g); [lia|exact IH].
Qed.

(** C10. Every client that [NewTwitterApi] returns has no bucket, an empty
    queue made without a buffer, and exactly one dispatcher goroutine (the
    clients that were there are as before).  Whatever the goroutines of
    the process do next, its bucket stays absent and no token is spent for
    its queries until [EnableRateLimiting] is called on it. *)
Theorem NewTwitterApi_starts_unthrottled
    (roundTrip : nat -> Verb -> oauth.Client -> oauth.Credentials ->
                 string -> Values -> http.Response + string)
    (jsonDecode : string -> option Val -> option Val * option string)
    (RateLimitCheck : ApiError -> Time -> bool * Time)
    (access_token access_token_secret : string) (p : Process) :
  dispatchers_ok p ->
  exists c p',
    NewTwitterApi access_token access_token_secret p = Ret c p' /\
    heap p' =
      heap p ++
      [{| Credentials := {| oauth.Token := access_token;
                            oauth.Secret := access_token_secret |};
          queryQueue := {| cap := 0; pending := [] |};
          bucket := None |}] /\
    heap p' !! c =
      Some {| Credentials := {| oauth.Token := access_token;
                                oauth.Secret := access_token_secret |};
              queryQueue := {| cap := 0; pending := [] |};
              bucket := None |} /\
    goroutines p' = goroutines p ++ [c] /\
    length (List.filter (Nat.eqb c) (goroutines p')) = 1 /\
    forall ops,
      forallb (fun o => negb (enables c o)) ops = true ->
      bucket_of c (final (steps roundTrip jsonDecode RateLimitCheck ops p')) =
        Some None /\
      exists evs,
        trace (final (steps roundTrip jsonDecode RateLimitCheck ops p')) =
          trace p ++ evs /\
        Forall (fun e => spends c e = false) evs.
Proof.
  intros Hok. exists (length (heap p)). eexists.
  split; [reflexivity|]. simpl.
  split; [reflexivity|].
  assert (Hl : (heap p ++
      [{| Credentials := {| oauth.Token := access_token;
                            oauth.Secret := access_token_secret |};
          queryQueue := make_chan 0; bucket := None |}]) !! length (heap p) =
      Some {| Credentials := {| oauth.Token := access_token;
                                oauth.Secret := access_token_secret |};
              queryQueue := make_chan 0; bucket := None |}).
  { rewrite lookup_app_r by reflexivity. now rewrite Nat.sub_diag. }
  split; [exact Hl|]. split; [reflexivity|]. split.
  - rewrite List.filter_app. simpl. rewrite Nat.eqb_refl.
    rewrite filter_eqb_fresh by exact Hok. reflexivity.
  - intros ops Hops.
    refine (nil_steps roundTrip jsonDecode RateLimitCheck _ ops Hops _ _).
    unfold bucket_of. simpl.
    fold (make_chan 0).
    now rewrite Hl.
Qed.

Lemma NewTwitterApi_starts_unthrottled_witness :
  let transport := Sample.scripted [Sample.ok "{}"] in
  let ops :=
    [OpAct 0 (Submit (Sample.get "u" 1 11));
     OpNewTwitterApi "tok2" "sec2"; OpEnableRateLimiting 1 1%Z 5%Z;
     OpDisableRateLimiting 0; OpAct 0 Turn] in
  exists p',
    NewTwitterApi "tok" "sec" init_Process = Ret 0 p' /\
    goroutines p' = [0] /\
    bucket_of 0 (final (steps transport Sample.decode Sample.rateLimitCheck
                          ops p')) = Some None /\
    exists evs,
      trace (final (steps transport Sample.decode Sample.rateLimitCheck
                      ops p')) = evs /\
      Forall (fun e => spends 0 e = false) evs.
Proof.
  intros transport ops.
  destruct (NewTwitterApi_starts_unthrottled transport Sample.decode
              Sample.rateLimitCheck "tok" "sec" init_Process)
    as (c & p' & E & _ & _ & Hg & _ & H).
  { constructor. }
  unfold NewTwitterApi, bind, alloc, go_throttledQuery, ret in E.
  simpl in E. injection E as Ec Ep. subst c p'.
  eexists. split; [reflexivity|]. split; [exact Hg|].
  destruct (H ops eq_refl) as (Hb & evs & Et & F).
  split; [exact Hb|]. exists evs. split; [exact Et|exact F].
Defined.

(** ** Order of dispatch and of delivery *)

Section Fifo.
Variable roundTrip :
  nat -> Verb -> oauth.Client -> oauth.Credentials -> string -> Values ->
  http.Response + string.
Variable jsonDecode : string -> option Val -> option Val * option string.
Variable RateLimitCheck : ApiError -> Time -> bool * Time.
Variable c : nat.

(** No response is classified as a rate-limit rejection. *)
Hypothesis no_rejection : forall e t, (RateLimitCheck e t).1 = false.

(** What [execQuery] leaves behind for a query [q]: the clients are as
    before and the only event is the signed call of [q]. *)
Lemma execQuery_effects (a : TwitterApi) (q : query) (p : Process) :
  exists err p2 evs,
    execQuery roundTrip jsonDecode a (url q) (form q) (data q) (method q) p =
      Ret err p2 /\
    heap p2 = heap p /\
    trace p2 = trace p ++ evs /\
    received evs = [] /\ delivered evs = [] /\
    signed_calls evs = call_of q.
Proof.
  destruct (execQuery_frame roundTrip jsonDecode a (url q) (form q)
              (data q) (method q) p) as (err & tm & E).
  unfold call_of.
  destruct (method q =? _GET)%Z; [|destruct (method q =? _POST)%Z];
    (eexists err, _, _; split; [exact E|]); simpl.
  - repeat split.
  - repeat split.
  - exists. 1: reflexivity. split; [symmetry; apply app_nil_r|].
    repeat split.
Qed.

(** With every answer a 200 that decodes, a query with a supported
    method succeeds. *)
Lemma execQuery_succeeds (a : TwitterApi) (q : query) (p : Process) :
  (forall n v o cr u f,
     exists resp,
       roundTrip n v o cr u f = inl resp /\ http.StatusCode resp = 200%Z) ->
  (forall body old, (jsonDecode body old).2 = None) ->
  method q = _GET \/ method q = _POST ->
  exists p2,
    execQuery roundTrip jsonDecode a (url q) (form q) (data q) (method q) p =
      Ret None p2.
Proof.
  intros Hok Hdec Hm.
  assert (Hcall : forall v, exists p2,
    (r <- oauthClient_call roundTrip v (Credentials a) (url q) (form q) ;;
     match r with
     | inr e => ret (Some (TransportError e))
     | inl resp => decodeResponse jsonDecode resp (data q)
     end) p = Ret None p2).
  { intros v. unfold bind. rewrite oauthClient_call_eq.
    destruct (Hok (calls p) v (oauthClient p) (Credentials a) (url q)
                (form q)) as (resp & -> & Hs).
    unfold decodeResponse. rewrite Hs. simpl. unfold json_Decode.
    rewrite Hdec. simpl. eauto. }
  unfold execQuery. destruct Hm as [-> | ->]; simpl; apply Hcall.
Qed.

(** The body of the loop on a client without bucket: one signed call at
    most, one delivery at most, and the delivery is to the channel of
    the query. *)
Lemma body_effects (a : TwitterApi) (q : query) (p : Process) :
  heap p !! c = Some a -> bucket a = None ->
  exists p' evs,
    throttledQuery_body roundTrip jsonDecode RateLimitCheck c q p =
      Ret tt p' /\
    heap p' = heap p /\
    trace p' = trace p ++ evs /\
    received evs = [] /\
    signed_calls evs = call_of q /\
    (delivered evs = [] \/ delivered evs = [response_ch q]) /\
    ((forall n v o cr u f,
        exists resp,
          roundTrip n v o cr u f = inl resp /\
          http.StatusCode resp = 200%Z) ->
     (forall body old, (jsonDecode body old).2 = None) ->
     method q = _GET \/ method q = _POST ->
     delivered evs = [response_ch q]).
Proof.
  intros Hc Hb.
  rewrite (body_without_bucket _ _ _ c q a p Hc Hb).
  destruct (execQuery_effects a q p)
    as (err & p2 & evs & E & Hh & Ht & Hr & Hd & Hs).
  rewrite (bind_Ret _ _ _ _ _ E).
  destruct err as [e|].
  - exists p2, evs.
    split.
    { destruct e; try reflexivity.
      now apply classify_not_rate_limited. }
    repeat (split; [assumption|]). split; [now left|].
    intros Hok Hdec Hm.
    destruct (execQuery_succeeds a q p Hok Hdec Hm) as (p3 & E3).
    rewrite E3 in E. discriminate.
  - eexists _, (evs ++ [_]). split; [reflexivity|]. simpl.
    split; [assumption|]. split; [now rewrite Ht, app_assoc|].
    rewrite received_app, signed_calls_app, delivered_app, Hr, Hs, Hd.
    simpl. rewrite app_nil_r. repeat split. now right.
Qed.

(** One turn of the loop takes the oldest pending query. *)
Lemma turn_effects (a : TwitterApi) (q : query) (rest : list query)
    (p : Process) :
  heap p !! c = Some a -> bucket a = None ->
  pending (queryQueue a) = q :: rest ->
  exists p' evs,
    throttledQuery_turn roundTrip jsonDecode RateLimitCheck c p =
      Ret true p' /\
    heap p' !! c = Some (set_pending rest a) /\
    trace p' = trace p ++ evs /\
    received evs = [q] /\
    signed_calls evs = call_of q /\
    (delivered evs = [] \/ delivered evs = [response_ch q]) /\
    ((forall n v o cr u f,
        exists resp,
          roundTrip n v o cr u f = inl resp /\
          http.StatusCode resp = 200%Z) ->
     (forall body old, (jsonDecode body old).2 = None) ->
     method q = _GET \/ method q = _POST ->
     delivered evs = [response_ch q]).
Proof.
  intros Hc Hb Hp.
  assert (Hlt : c < length (heap p)) by (eapply lookup_lt_Some; eassumption).
  unfold throttledQuery_turn.
  assert (Er : recv_queryQueue c p =
               Ret (Some q)
                 (log (EvRecv c q)
                    (set_heap (<[c := set_pending rest a]> (heap p)) p))).
  { unfold recv_queryQueue.
    rewrite (bind_Ret _ _ _ _ _ (load_Some _ _ _ Hc)). now rewrite Hp. }
  rewrite (bind_Ret _ _ _ _ _ Er).
  set (p1 := log _ _).
  assert (Hc1 : heap p1 !! c = Some (set_pending rest a)).
  { unfold p1. simpl. now apply list_lookup_insert_eq. }
  destruct (body_effects (set_pending rest a) q p1 Hc1 Hb)
    as (p' & evs & E & Hh & Ht & Hr & Hs & Hd & Hall).
  rewrite (bind_Ret _ _ _ _ _ E).
  exists p', (EvRecv c q :: evs). split; [reflexivity|].
  split; [now rewrite Hh|].
  split; [rewrite Ht; unfold p1; simpl; now rewrite <- app_assoc|].
  simpl. rewrite Hr. repeat split; assumption.
Qed.

Lemma turn_idle (a : TwitterApi) (p : Process) :
  heap p !! c = Some a -> pending (queryQueue a) = [] ->
  throttledQuery_turn roundTrip jsonDecode RateLimitCheck c p = Ret false p.
Proof.
  intros Hc Hp. unfold throttledQuery_turn, recv_queryQueue, bind.
  rewrite (load_Some _ _ _ Hc). now rewrite Hp.
Qed.

(** Callers and dispatcher taking turns in any order: the queries are
    received in the order of their submission, the signed calls are
    theirs in that order, and so are the deliveries. *)
Lemma run_effects (l : list Action) :
  forall (p : Process) (a : TwitterApi),
    heap p !! c = Some a -> bucket a = None ->
    exists p' evs a',
      run roundTrip jsonDecode RateLimitCheck c l p = Ret tt p' /\
      heap p' !! c = Some a' /\ bucket a' = None /\
      trace p' = trace p ++ evs /\
      received evs ++ pending (queryQueue a') =
        pending (queryQueue a) ++ submitted l /\
      signed_calls evs = flat_map call_of (received evs) /\
      delivered evs `sublist_of` map response_ch (received evs) /\
      ((forall n v o cr u f,
          exists resp,
            roundTrip n v o cr u f = inl resp /\
            http.StatusCode resp = 200%Z) ->
       (forall body old, (jsonDecode body old).2 = None) ->
       Forall (fun q => method q = _GET \/ method q = _POST)
              (pending (queryQueue a) ++ submitted l) ->
       delivered evs = map response_ch (received evs)).
Proof.
  induction l as [|x l IH]; intros p a Hc Hb.
  - exists p, [], a. simpl. rewrite !app_nil_r.
    repeat split; trivial.
  - assert (Hlt : c < length (heap p))
      by (eapply lookup_lt_Some; eassumption).
    destruct x as [q|]; simpl.
    + (* a caller submits q *)
      assert (Es : submit c q p =
        Ret tt (set_heap
                  (<[c := set_pending (pending (queryQueue a) ++ [q]) a]>
                     (heap p)) p)).
      { unfold submit.
        now rewrite (bind_Ret _ _ _ _ _ (load_Some _ _ _ Hc)). }
      unfold meanwhile. rewrite Es.
      set (p1 := set_heap _ p).
      assert (Hc1 : heap p1 !! c =
                    Some (set_pending (pending (queryQueue a) ++ [q]) a))
        by (unfold p1; simpl; now apply list_lookup_insert_eq).
      destruct (IH p1 _ Hc1 Hb)
        as (p' & evs & a' & E & Hc' & Hb' & Ht & Hq & Hs & Hd & Hall).
      exists p', evs, a'. split; [exact E|].
      repeat (split; [assumption|]). simpl in Hq, Hall.
      split; [now rewrite Hq, <- app_assoc|].
      repeat (split; [assumption|]).
      intros Hok Hdec Hm. apply Hall; trivial.
      now rewrite <- app_assoc.
    + (* the dispatcher takes a turn *)
      unfold meanwhile.
      destruct (bool_decide (c ∈ parked p)).
      { destruct (IH p a Hc Hb)
          as (p' & evs & a' & E & Hc' & Hb' & Ht & Hq & Hs & Hd & Hall).
        exists p', evs, a'. split; [exact E|].
        repeat (split; [assumption|]). exact Hall. }
      destruct (pending (queryQueue a)) as [|q rest] eqn:Hp.
      * rewrite (bind_Ret _ _ _ _ _ (turn_idle a p Hc Hp)). simpl.
        destruct (IH p a Hc Hb)
          as (p' & evs & a' & E & Hc' & Hb' & Ht & Hq & Hs & Hd & Hall).
        rewrite Hp in Hq, Hall.
        exists p', evs, a'. split; [exact E|].
        repeat (split; [assumption|]). exact Hall.
      * destruct (turn_effects a q rest p Hc Hb Hp)
          as (p1 & evs1 & E1 & Hc1 & Ht1 & Hr1 & Hs1 & Hd1 & Hall1).
        rewrite (bind_Ret _ _ _ _ _ E1). simpl.
        destruct (IH p1 _ Hc1 Hb)
          as (p' & evs & a' & E & Hc' & Hb' & Ht & Hq & Hs & Hd & Hall).
        simpl in Hq, Hall.
        exists p', (evs1 ++ evs), a'. split; [exact E|].
        repeat (split; [assumption|]).
        split; [now rewrite Ht, Ht1, app_assoc|].
        rewrite received_app, signed_calls_app, delivered_app, Hr1, Hs1, Hs.
        simpl. split; [now rewrite Hq|]. split; [reflexivity|].
        split.
        { destruct Hd1 as [-> | ->]; simpl.
          - now apply sublist_cons.
          - now apply sublist_skip. }
        intros Hok Hdec Hm. apply Forall_cons in Hm as [Hmq Hm].
        rewrite (Hall1 Hok Hdec Hmq), (Hall Hok Hdec Hm). reflexivity.
Qed.
End Fifo.

(** The order of dispatch.  On a client without bucket, and with no
    response classified as a rate-limit rejection, let callers submit
    queries and the dispatcher take turns in any order.  The queries are
    received by the dispatcher
    in the order of their submission (what was received, followed by what
    is still pending, is what was pending followed by what was
    submitted); the signed calls are those of the received queries, in
    that order; and the result channels written to are those of the
    received queries, in that order (a subsequence of them, all of them
    when every call succeeds). *)
Theorem dispatch_is_fifo
    (roundTrip : nat -> Verb -> oauth.Client -> oauth.Credentials ->
                 string -> Values -> http.Response + string)
    (jsonDecode : string -> option Val -> option Val * option string)
    (RateLimitCheck : ApiError -> Time -> bool * Time)
    (c : nat) (l : list Action) (p : Process) (a : TwitterApi) :
  heap p !! c = Some a ->
  bucket a = None ->
  (forall e t, (RateLimitCheck e t).1 = false) ->
  exists p' evs,
    run roundTrip jsonDecode RateLimitCheck c l p = Ret tt p' /\
    trace p' = trace p ++ evs /\
    received evs ++ pending_of c p' = pending (queryQueue a) ++ submitted l /\
    signed_calls evs = flat_map call_of (received evs) /\
    delivered evs `sublist_of` map response_ch (received evs) /\
    ((forall n v o cr u f,
        exists resp,
          roundTrip n v o cr u f = inl resp /\
          http.StatusCode resp = 200%Z) ->
     (forall body old, (jsonDecode body old).2 = None) ->
     Forall (fun q => method q = _GET \/ method q = _POST)
            (pending (queryQueue a) ++ submitted l) ->
     delivered evs = map response_ch (received evs)).
Proof.
  intros Hc Hb Hno.
  destruct (run_effects roundTrip jsonDecode RateLimitCheck c Hno l p a Hc Hb)
    as (p' & evs & a' & E & Hc' & Hb' & Ht & Hq & Hs & Hd & Hall).
  exists p', evs. split; [exact E|]. split; [exact Ht|].
  unfold pending_of. rewrite Hc'.
  repeat (split; [assumption|]). exact Hall.
Qed.

Lemma dispatch_is_fifo_witness :
  let transport :=
    Sample.scripted [Sample.ok "{1}"; Sample.status 404 "no"; Sample.ok "{3}"] in
  let q1 := Sample.get "u1" 1 11 in
  let q2 := Sample.get "u2" 2 12 in
  let q3 := Sample.post "u3" 3 13 in
  let l := [Submit q1; Turn; Submit q2; Submit q3; Turn; Turn; Turn] in
  let p := final (NewTwitterApi "tok" "sec" init_Process) in
  exists p' evs,
    run transport Sample.decode Sample.never 0 l p = Ret tt p' /\
    trace p' = evs /\
    received evs = [q1; q2; q3] /\
    signed_calls evs = [(GET, "u1", []); (GET, "u2", []); (POST, "u3", [])] /\
    delivered evs = [11; 13] /\
    delivered evs `sublist_of` map response_ch (received evs).
Proof.
  intros transport q1 q2 q3 l p.
  destruct (dispatch_is_fifo transport Sample.decode Sample.never 0 l p _
              eq_refl eq_refl (fun _ _ => eq_refl))
    as (p' & evs & E & Ht & _ & _ & Hd & _).
  exists p', evs. split; [exact E|]. split; [exact Ht|].
  vm_compute in E. injection E as <-. simpl in Ht. subst evs.
  repeat split. exact Hd.
Defined.

(** C7. A client made by [NewTwitterApi], rate limiting disabled, and one
    caller: its first GET is answered by a 200, its second by a 404 that
    is no rate-limit rejection.  Both queries are received and their
    signed calls made in the order of submission, nothing is put back on
    the queue, and the dispatcher goes back to waiting with nothing
    pending; but only the first result is delivered: the second query
    never gets one, turn after turn, so the results do not come in the
    order of submission, the second does not come at all. *)
Theorem failed_request_gets_no_result :
  let transport :=
    Sample.scripted [Sample.ok "{1}"; Sample.status 404 "no"] in
  let q1 := Sample.get "u1" 1 11 in
  let q2 := Sample.get "u2" 2 12 in
  let p := final (NewTwitterApi "tok" "sec" init_Process) in
  let l := [Submit q1; Turn; Submit q2; Turn; Turn; Turn] in
  exists p',
    run transport Sample.decode Sample.rateLimitCheck 0 l p = Ret tt p' /\
    bucket_of 0 p' = Some None /\
    List.filter is_Requeue (trace p') = [] /\
    received (trace p') = [q1; q2] /\
    signed_calls (trace p') = [(GET, "u1", []); (GET, "u2", [])] /\
    pending_of 0 p' = [] /\
    parked p' = [] /\
    delivered (trace p') = [11] /\
    deliveries 11 (trace p') = [{| rdata := 1; rerr := None |}] /\
    deliveries 12 (trace p') = [].
Proof.
  intros transport q1 q2 p l. eexists.
  split; [vm_compute; reflexivity|].
  vm_compute. repeat split.
Qed.

(** ** Rate-limit rejections *)

(** On a queue that has room and with a bucket, the rejected query goes
    back to the tail of the queue, the dispatcher sleeps until the window
    resets and then drains the bucket, in this order, and nothing is
    delivered. *)
Lemma classify_rate_limited_room RLC c q e a b p :
  heap p !! c = Some a ->
  bucket a = Some b ->
  (RLC e (now p)).1 = true ->
  (length (pending (queryQueue a)) < cap (queryQueue a))%nat ->
  exists p',
    classify RLC c q (Some (ApiErrorPtr e)) p = Ret tt p' /\
    trace p' =
      trace p ++ [EvRequeue c q; EvSleep (RLC e (now p)).2; EvDrain c] /\
    pending_of c p' = pending (queryQueue a) ++ [q] /\
    now p' = Z.max (now p) (RLC e (now p)).2 /\
    bucket_of c p' = Some (Some (tokenbucket.Drain b)).
Proof.
  intros Hc Hb Hrl Hroom.
  assert (Hlt : c < length (heap p)) by (eapply lookup_lt_Some; eassumption).
  unfold classify, bind, time_Now. rewrite Hrl.
  unfold send_queryQueue, bind. rewrite (load_Some _ _ _ Hc).
  apply Nat.ltb_lt in Hroom. rewrite Hroom. simpl.
  unfold bucket_Drain, bind, load. simpl.
  rewrite list_lookup_insert_eq by assumption.
  simpl. rewrite Hb. eexists. split; [reflexivity|]. simpl.
  split; [now rewrite <- !app_assoc|].
  unfold pending_of, bucket_of. simpl.
  rewrite list_lookup_insert_eq by (now rewrite length_insert).
  repeat split.
Qed.

(** On a queue that has no room, and so on every queue made without a
    buffer, the dispatcher parks on the send: it does not sleep, it does
    not drain the bucket, and the query is not back in the queue. *)
Lemma classify_rate_limited_full RLC c q e a p :
  heap p !! c = Some a ->
  (RLC e (now p)).1 = true ->
  (cap (queryQueue a) <= length (pending (queryQueue a)))%nat ->
  classify RLC c q (Some (ApiErrorPtr e)) p =
  Block (set_parked (c :: parked p) p).
Proof.
  intros Hc Hrl Hfull.
  unfold classify, bind, time_Now. rewrite Hrl.
  unfold send_queryQueue, bind. rewrite (load_Some _ _ _ Hc).
  apply Nat.ltb_ge in Hfull. now rewrite Hfull.
Qed.

Lemma classify_rate_limited_unbuffered RLC c q e a p :
  heap p !! c = Some a ->
  cap (queryQueue a) = 0 ->
  (RLC e (now p)).1 = true ->
  classify RLC c q (Some (ApiErrorPtr e)) p =
  Block (set_parked (c :: parked p) p).
Proof.
  intros Hc Hcap Hrl. eapply classify_rate_limited_full; eauto.
  rewrite Hcap. lia.
Qed.

(** *** A parked dispatcher stays parked *)

Section Parked.
Variable roundTrip :
  nat -> Verb -> oauth.Client -> oauth.Credentials -> string -> Values ->
  http.Response + string.
Variable jsonDecode : string -> option Val -> option Val * option string.
Variable RateLimitCheck : ApiError -> Time -> bool * Time.
Variable c : nat.

Local Abbreviation R :=
  (inv_rel (fun p => c ∈ parked p)
           (fun e => match e with EvRecv c' _ => c' <> c | _ => True end)).

Ltac parked_op :=
  intros p HI; run_op;
  (split; [try assumption; now apply list_elem_of_further|trace_ext]).

Lemma parked_send c' q : preserves R (send_queryQueue c' q).
Proof. unfold send_queryQueue. parked_op. Qed.

Lemma parked_submit c' q : preserves R (submit c' q).
Proof. unfold submit. parked_op. Qed.

Lemma parked_response ch r : preserves R (send_response ch r).
Proof. parked_op. Qed.

Lemma parked_Drain c' : preserves R (bucket_Drain c').
Proof. unfold bucket_Drain. parked_op. Qed.

Lemma parked_SpendToken c' n : preserves R (bucket_SpendToken c' n).
Proof. unfold bucket_SpendToken. parked_op. Qed.

Lemma parked_sleep t : preserves R (sleep_until t).
Proof. parked_op. Qed.

Lemma parked_New tok sec : preserves R (NewTwitterApi tok sec).
Proof. unfold NewTwitterApi. parked_op. Qed.

Lemma parked_Enable c' r b : preserves R (EnableRateLimiting c' r b).
Proof. unfold EnableRateLimiting. parked_op. Qed.

Lemma parked_Disable c' : preserves R (DisableRateLimiting c').
Proof. unfold DisableRateLimiting. parked_op. Qed.

Lemma parked_SetDelay c' t : preserves R (SetDelay c' t).
Proof. unfold SetDelay. parked_op. Qed.

Lemma parked_GetDelay c' : preserves R (GetDelay c').
Proof. unfold GetDelay. parked_op. Qed.

Lemma parked_SetConsumerKey k : preserves R (SetConsumerKey k).
Proof. parked_op. Qed.

Lemma parked_SetConsumerSecret s : preserves R (SetConsumerSecret s).
Proof. parked_op. Qed.

Lemma parked_execQuery a u f d m :
  preserves R (execQuery roundTrip jsonDecode a u f d m).
Proof.
  intros p HI.
  destruct (execQuery_frame roundTrip jsonDecode a u f d m p)
    as (err & tm & ->).
  destruct (m =? _GET)%Z; [|destruct (m =? _POST)%Z]; simpl;
    (split; [exact HI|trace_ext]).
Qed.

Lemma parked_recv c' : c' <> c -> preserves R (recv_queryQueue c').
Proof. intros N. unfold recv_queryQueue. parked_op. Qed.

Hint Resolve parked_send parked_submit parked_response parked_Drain
  parked_SpendToken parked_sleep parked_New parked_Enable parked_Disable
  parked_SetDelay parked_GetDelay parked_SetConsumerKey
  parked_SetConsumerSecret parked_execQuery parked_recv : inv.

Lemma parked_turn c' :
  c' <> c ->
  preserves R (throttledQuery_turn roundTrip jsonDecode RateLimitCheck c').
Proof.
  intros N.
  unfold throttledQuery_turn, throttledQuery_body, gate, classify.
  inv_frame.
Qed.

Lemma parked_act c' a :
  preserves R (act roundTrip jsonDecode RateLimitCheck c' a).
Proof.
  destruct a; simpl; [apply parked_submit|].
  intros p HI. destruct (bool_decide_reflect (c' ∈ parked p)) as [Hin|Hout].
  - simpl. split; [exact HI|trace_ext].
  - assert (N : c' <> c) by (intros ->; contradiction).
    assert (H : preserves R
      (throttledQuery_turn roundTrip jsonDecode RateLimitCheck c' ;;;
       ret tt)) by (inv_frame; now apply parked_turn).
    now apply H.
Qed.

(** Once the dispatcher of [c] is parked it receives no query any more,
    whatever the goroutines of the process do. *)
Lemma parked_steps (l : list Op) :
  preserves R (steps roundTrip jsonDecode RateLimitCheck l).
Proof.
  induction l as [|o l IH]; simpl; [inv_frame|].
  apply preserves_meanwhile; [typeclasses eauto| |exact IH].
  destruct o; simpl; try (inv_frame; fail).
  apply parked_act.
Qed.
End Parked.

(** C3. A client made by [NewTwitterApi], with rate limiting enabled,
    whose first GET is answered by a 429 that resets at instant 100.  The
    dispatcher parks on the re-submission: the query is not back in the
    queue, the clock has not moved to 100, the bucket is not drained, and
    nothing was delivered.  The dispatcher does not resume: a query
    submitted afterwards stays pending, turn after turn. *)
Theorem rate_limited_dispatcher_parks :
  let transport := Sample.scripted [Sample.tooMany "100"; Sample.ok "{}"] in
  let q := Sample.get "u" 1 11 in
  let q' := Sample.get "v" 2 12 in
  let p :=
    final ((c <- NewTwitterApi "tok" "sec" ;;
            EnableRateLimiting c 1%Z 5%Z ;;;
            submit c q) init_Process) in
  exists p',
    throttledQuery transport Sample.decode Sample.rateLimitCheck 10 0 p =
      Block p' /\
    trace p' =
      [EvRecv 0 q; EvSpendToken 0 1;
       EvSigned GET {| oauth.Token := ""; oauth.Secret := "" |}
                {| oauth.Token := "tok"; oauth.Secret := "sec" |} "u" []] /\
    pending_of 0 p' = [] /\
    now p' = 0%Z /\
    bucket_of 0 p' =
      Some (Some {| tokenbucket.rate := 1%Z; tokenbucket.capacity := 5%Z;
                    tokenbucket.tokens := 4%Z |}) /\
    deliveries 11 (trace p') = [] /\
    parked p' = [0] /\
    let later :=
      final (steps transport Sample.decode Sample.rateLimitCheck
               [OpAct 0 (Submit q'); OpAct 0 Turn; OpAct 0 Turn] p') in
    trace later = trace p' /\ pending_of 0 later = [q'].
Proof.
  intros transport q q' p. eexists. split; [vm_compute; reflexivity|].
  vm_compute. repeat split.
Qed.

(** C1. A client made by [NewTwitterApi] and five queries: a GET that
    fails in the transport, a GET answered by a 200 whose body does not
    decode, a query with an unsupported method, a POST answered by a 404,
    and a GET that succeeds.  The dispatcher serves all five and goes back
    to waiting; the only result channel written to is that of the last
    query: none of the four errors reaches its caller. *)
Theorem errors_are_not_delivered :
  let transport :=
    Sample.scripted
      [inr "timeout"; Sample.ok ""; Sample.status 404 "nf"; Sample.ok "{}"] in
  let q1 := Sample.get "a" 1 11 in
  let q2 := Sample.get "b" 2 12 in
  let q3 := {| url := "c"; form := []; data := 3; method := 2;
               response_ch := 13 |} in
  let q4 := Sample.post "d" 4 14 in
  let q5 := Sample.get "e" 5 15 in
  let p :=
    final ((c <- NewTwitterApi "tok" "sec" ;;
            submit c q1 ;;; submit c q2 ;;; submit c q3 ;;;
            submit c q4 ;;; submit c q5) init_Process) in
  exists p',
    throttledQuery transport Sample.decode Sample.rateLimitCheck 10 0 p =
      Ret true p' /\
    received (trace p') = [q1; q2; q3; q4; q5] /\
    signed_calls (trace p') =
      [(GET, "a", []); (GET, "b", []); (POST, "d", []); (GET, "e", [])] /\
    pending_of 0 p' = [] /\
    deliveries 11 (trace p') = [] /\
    deliveries 12 (trace p') = [] /\
    deliveries 13 (trace p') = [] /\
    deliveries 14 (trace p') = [] /\
    deliveries 15 (trace p') = [{| rdata := 5; rerr := None |}].
Proof.
  intros transport q1 q2 q3 q4 q5 p. eexists.
  split; [vm_compute; reflexivity|].
  vm_compute. repeat split.
Qed.

(** C2. A client made by [NewTwitterApi] and one GET, answered by a 200
    whose body does not decode.  The dispatcher serves the query and goes
    back to waiting with nothing pending; over the whole life of the
    query nothing is written to its result channel, and further turns of
    the dispatcher change nothing. *)
Theorem decode_failure_is_dropped :
  let transport := Sample.scripted [Sample.ok ""] in
  let q := Sample.get "u" 1 11 in
  let p :=
    final ((c <- NewTwitterApi "tok" "sec" ;; submit c q) init_Process) in
  exists p',
    throttledQuery transport Sample.decode Sample.rateLimitCheck 10 0 p =
      Ret true p' /\
    received (trace p') = [q] /\
    pending_of 0 p' = [] /\
    length (deliveries 11 (trace p')) = 0 /\
    final (steps transport Sample.decode Sample.rateLimitCheck
             [OpAct 0 Turn; OpAct 0 Turn; OpAct 0 Turn] p') = p'.
Proof.
  intros transport q p. eexists.
  split; [vm_compute; reflexivity|].
  vm_compute. repeat split.
Qed.


(** ** At most one result per query *)

Lemma bounded_bind mu n1 n2 {A B} (m : M A) (k : A -> M B) :
  bounded mu n1 m -> (forall a, bounded mu n2 (k a)) ->
  bounded mu (n1 + n2) (bind m k).
Proof.
  intros Hm Hk p. unfold bind. specialize (Hm p).
  destruct (m p) as [a p'|p'|p']; simpl in *; try lia.
  specialize (Hk a p'). lia.
Qed.

Lemma bounded_weaken mu n n' {A} (m : M A) :
  n <= n' -> bounded mu n m -> bounded mu n' m.
Proof. intros Hn Hm p. specialize (Hm p). lia. Qed.

Lemma asked_app ch l1 l2 : asked ch (l1 ++ l2) = asked ch l1 + asked ch l2.
Proof. unfold asked. now rewrite List.filter_app, length_app. Qed.

Lemma pending_of_insert_eq (c : nat) (a a' : TwitterApi) (h : list TwitterApi) p :
  h !! c = Some a ->
  pending_of c (set_heap (<[c := a']> h) p) = pending (queryQueue a').
Proof.
  intros E. unfold pending_of. simpl.
  rewrite list_lookup_insert_eq; [reflexivity|].
  eapply lookup_lt_Some; eassumption.
Qed.

Lemma pending_of_insert_ne (c c' : nat) (a' : TwitterApi) p :
  c' <> c ->
  pending_of c (set_heap (<[c' := a']> (heap p)) p) = pending_of c p.
Proof.
  intros N. unfold pending_of. simpl. now rewrite list_lookup_insert_ne.
Qed.

Lemma bounded_meanwhile mu n1 n2 {A B} (m : M A) (k : M B) :
  bounded mu n1 m -> bounded mu n2 k -> bounded mu (n1 + n2) (meanwhile m k).
Proof.
  intros Hm Hk p. unfold meanwhile. specialize (Hm p).
  destruct (m p) as [a p'|p'|p']; simpl in *; try lia;
    specialize (Hk p'); lia.
Qed.

(** Reads the measure off the final state of an operation. *)
Ltac owed_state :=
  unfold owed, pending_of; simpl;
  rewrite ?deliveries_app; simpl; rewrite ?app_nil_r;
  repeat match goal with
  | |- context [<[?c := _]> _ !! ?c] =>
      rewrite list_lookup_insert_eq by (eapply lookup_lt_Some; eassumption)
  | |- context [<[?c' := _]> _ !! ?c] =>
      destruct (decide (c' = c)) as [->|?];
      [rewrite list_lookup_insert_eq by (eapply lookup_lt_Some; eassumption)
      |rewrite list_lookup_insert_ne by assumption]
  end;
  repeat match goal with
  | H : heap ?p !! ?c = Some _ |- context [heap ?p !! ?c] => rewrite H
  end;
  simpl; rewrite ?asked_app; try (unfold asked; simpl; lia).

Section AtMostOnce.
Variable roundTrip :
  nat -> Verb -> oauth.Client -> oauth.Credentials -> string -> Values ->
  http.Response + string.
Variable jsonDecode : string -> option Val -> option Val * option string.
Variable RateLimitCheck : ApiError -> Time -> bool * Time.
Variables ch c : nat.

Local Abbreviation mu := (owed ch c).

Ltac owed_op := intros p; run_op; try lia; owed_state.

Lemma load_owed c' : bounded mu 0 (load c').
Proof. owed_op. Qed.

Lemma gate_owed c' : bounded mu 0 (gate c').
Proof. unfold gate, bucket_SpendToken. owed_op. Qed.

Lemma Drain_owed c' : bounded mu 0 (bucket_Drain c').
Proof. unfold bucket_Drain. owed_op. Qed.

Lemma sleep_owed t : bounded mu 0 (sleep_until t).
Proof. owed_op. Qed.

Lemma execQuery_owed a u f d m :
  bounded mu 0 (execQuery roundTrip jsonDecode a u f d m).
Proof.
  intros p.
  destruct (execQuery_frame roundTrip jsonDecode a u f d m p)
    as (err & tm & ->).
  destruct (m =? _GET)%Z; [|destruct (m =? _POST)%Z]; simpl; try lia;
    owed_state.
Qed.

Lemma send_response_owed q r :
  bounded mu (asked ch [q]) (send_response (response_ch q) r).
Proof.
  intros p. run_op. owed_state. unfold asked. simpl.
  rewrite length_app. destruct (Nat.eqb (response_ch q) ch); simpl; lia.
Qed.

Lemma send_queryQueue_owed c' q :
  bounded mu (asked ch [q]) (send_queryQueue c' q).
Proof. unfold send_queryQueue. owed_op. Qed.

Lemma submit_owed c' q : bounded mu (asked ch [q]) (submit c' q).
Proof. unfold submit. owed_op. Qed.

(** The classification writes one result at most, or puts the query back
    once at most. *)
Lemma classify_owed q err :
  bounded mu (asked ch [q]) (classify RateLimitCheck c q err).
Proof.
  unfold classify. destruct err as [e|]; [|apply send_response_owed].
  destruct e; try (intros p; simpl; lia).
  assert (H : forall t,
    bounded mu (asked ch [q] + (0 + 0))
      (send_queryQueue c q ;;; sleep_until t ;;; bucket_Drain c)).
  { intros t.
    apply bounded_bind; [apply send_queryQueue_owed|intros _].
    apply bounded_bind; [apply sleep_owed|intros _; apply Drain_owed]. }
  intros p. unfold bind at 1. unfold time_Now.
  destruct (RateLimitCheck e (now p)).1; [|simpl; lia].
  specialize (H (RateLimitCheck e (now p)).2 p). lia.
Qed.

Lemma body_owed q :
  bounded mu (asked ch [q])
    (throttledQuery_body roundTrip jsonDecode RateLimitCheck c q).
Proof.
  unfold throttledQuery_body.
  change (asked ch [q]) with (0 + (0 + (0 + asked ch [q]))).
  apply bounded_bind; [apply gate_owed|intros _].
  apply bounded_bind; [apply load_owed|intros a].
  apply bounded_bind; [apply execQuery_owed|intros err].
  apply classify_owed.
Qed.

(** A turn of the dispatcher moves a query from the pending ones to the
    results, or drops it, or leaves it pending. *)
Lemma turn_owed :
  bounded mu 0 (throttledQuery_turn roundTrip jsonDecode RateLimitCheck c).
Proof.
  intros p. unfold throttledQuery_turn, recv_queryQueue.
  unfold bind at 1. unfold bind at 1. unfold load.
  destruct (heap p !! c) as [a|] eqn:Hc; [|simpl; lia].
  destruct (pending (queryQueue a)) as [|q rest] eqn:Hp; [simpl; lia|].
  unfold bind at 1 2, store, emit. simpl.
  set (p1 := log _ _).
  assert (H1 : owed ch c p1 + asked ch [q] = owed ch c p).
  { unfold p1. owed_state. rewrite Hp.
    change (q :: rest) with ([q] ++ rest). rewrite asked_app. simpl. lia. }
  pose proof (body_owed q p1) as Hb.
  unfold bind.
  destruct (throttledQuery_body _ _ _ c q p1); simpl in *; lia.
Qed.

Lemma act_owed a :
  bounded mu (asked ch (submitted [a]))
    (act roundTrip jsonDecode RateLimitCheck c a).
Proof.
  destruct a as [q|]; simpl; [apply submit_owed|].
  intros p. destruct (bool_decide _); [simpl; lia|].
  pose proof (turn_owed p) as H. unfold bind.
  destruct (throttledQuery_turn _ _ _ c p); simpl in *; lia.
Qed.

(** Callers and dispatcher taking turns in any order, with any transport,
    decoder and classification: the results written to a channel never
    outnumber the queries submitted with that channel. *)
Lemma run_owed (l : list Action) :
  bounded mu (asked ch (submitted l))
    (run roundTrip jsonDecode RateLimitCheck c l).
Proof.
  induction l as [|a l IH]; [intros p; simpl; lia|].
  assert (E : submitted (a :: l) = submitted [a] ++ submitted l)
    by (destruct a; reflexivity).
  rewrite E, asked_app. simpl run.
  apply bounded_meanwhile; [apply act_owed|exact IH].
Qed.

(** A query whose result channel is its own gets one result at most over
    its whole life, retries included. *)
Lemma at_most_one_result (l : list Action) (p : Process) :
  deliveries ch (trace p) = [] ->
  asked ch (pending_of c p) = 0 ->
  asked ch (submitted l) <= 1 ->
  length (deliveries ch
            (trace (final (run roundTrip jsonDecode RateLimitCheck c l p))))
  <= 1.
Proof.
  intros Hd Hp Hl. pose proof (run_owed l p) as H.
  unfold owed in H. rewrite Hd, Hp in H. simpl in H. lia.
Qed.
End AtMostOnce.

(** ** A retry on a queue with room *)

(** Where the queue has room for the re-submission (no client made by
    [NewTwitterApi] has), the retry works as the loop intends: the
    rejected query goes behind the one that arrived after it, the
    dispatcher sleeps until the reset, drains the bucket, and both callers
    get their one result, the later query first. *)
Example requeue_reorders :
  let transport :=
    Sample.scripted [Sample.tooMany "100"; Sample.ok "{2}"; Sample.ok "{1}"] in
  let q1 := Sample.get "u1" 1 11 in
  let q2 := Sample.get "u2" 2 12 in
  let p :=
    set_heap
      [{| Credentials := {| oauth.Token := "tok"; oauth.Secret := "sec" |};
          queryQueue := {| cap := 2; pending := [q1; q2] |};
          bucket := Some (tokenbucket.NewBucket 1%Z 5%Z) |}] init_Process in
  exists p',
    throttledQuery transport Sample.decode Sample.rateLimitCheck 10 0 p =
      Ret true p' /\
    received (trace p') = [q1; q2; q1] /\
    List.filter (fun e => is_Requeue e || is_Sleep e || is_Drain e)
                (trace p') =
      [EvRequeue 0 q1; EvSleep 100%Z; EvDrain 0] /\
    delivered (trace p') = [12; 11] /\
    deliveries 11 (trace p') = [{| rdata := 1; rerr := None |}] /\
    now p' = 102%Z /\
    targets p' !! 1 = Some "{1}".
Proof.
  intros transport q1 q2 p. eexists.
  split; [vm_compute; reflexivity|].
  vm_compute. repeat split.
Qed.


(** * Further properties of the package *)

Lemma answers_app tr1 tr2 : answers (tr1 ++ tr2) = answers tr1 ++ answers tr2.
Proof.
  induction tr1 as [|e tr1 IH]; simpl; [reflexivity|].
  destruct e; simpl; now rewrite ?IH.
Qed.

Lemma requests_app tr1 tr2 :
  requests (tr1 ++ tr2) = requests tr1 ++ requests tr2.
Proof. unfold requests. now rewrite received_app, map_app. Qed.

Lemma spent_app c tr1 tr2 : spent c (tr1 ++ tr2) = spent c tr1 + spent c tr2.
Proof. unfold spent. now rewrite List.filter_app, length_app. Qed.

(** ** The loop serves what is pending *)

Section Serving.
Variable roundTrip :
  nat -> Verb -> oauth.Client -> oauth.Credentials -> string -> Values ->
  http.Response + string.
Variable jsonDecode : string -> option Val -> option Val * option string.
Variable RateLimitCheck : ApiError -> Time -> bool * Time.
Variable c : nat.

Hypothesis no_rejection : forall e t, (RateLimitCheck e t).1 = false.

(** After the gate: one signed call at most, one delivery at most, no
    token spent, and the clients are as they were. *)
Lemma after_gate_effects (a : TwitterApi) (q : query) (p : Process) :
  heap p !! c = Some a ->
  exists p' evs,
    (a0 <- load c ;;
     err <- execQuery roundTrip jsonDecode a0 (url q) (form q) (data q)
              (method q) ;;
     classify RateLimitCheck c q err) p = Ret tt p' /\
    heap p' = heap p /\
    trace p' = trace p ++ evs /\
    received evs = [] /\
    signed_calls evs = call_of q /\
    spent c evs = 0 /\
    (delivered evs = [] \/ delivered evs = [response_ch q]).
Proof.
  intros Hc. rewrite (bind_Ret _ _ _ _ _ (load_Some _ _ _ Hc)).
  destruct (execQuery_frame roundTrip jsonDecode a (url q) (form q) (data q)
              (method q) p) as (err & tm & E).
  rewrite (bind_Ret _ _ _ _ _ E). clear E.
  set (p2 := if (method q =? _GET)%Z then _ else _).
  assert (H2 : exists evs,
    heap p2 = heap p /\ trace p2 = trace p ++ evs /\ received evs = [] /\
    signed_calls evs = call_of q /\ spent c evs = 0 /\ delivered evs = []).
  { unfold p2, call_of.
    destruct (method q =? _GET)%Z; [|destruct (method q =? _POST)%Z];
      simpl; [eexists [_]|eexists [_]|exists []]; simpl;
      rewrite ?app_nil_r; repeat split. }
  destruct H2 as (evs & Hh & Ht & Hr & Hs & Hsp & Hd).
  clearbody p2.
  destruct err as [e|].
  - exists p2, evs. split.
    { destruct e; try reflexivity. now apply classify_not_rate_limited. }
    repeat (split; [assumption|]). now left.
  - eexists _, (evs ++ [_]). split; [reflexivity|]. simpl.
    split; [assumption|]. split; [now rewrite Ht, app_assoc|].
    rewrite received_app, signed_calls_app, spent_app, delivered_app.
    rewrite Hr, Hs, Hsp, Hd. simpl. rewrite app_nil_r. repeat split.
    now right.
Qed.

(** One turn on a queue that is not empty: the oldest query leaves the
    queue, one token is spent if there is a bucket, and the bucket is
    present after the turn exactly if it was before. *)
Lemma turn_serves (a : TwitterApi) (q : query) (rest : list query)
    (p : Process) :
  heap p !! c = Some a ->
  pending (queryQueue a) = q :: rest ->
  exists p' evs a',
    throttledQuery_turn roundTrip jsonDecode RateLimitCheck c p =
      Ret true p' /\
    heap p' !! c = Some a' /\
    pending (queryQueue a') = rest /\
    (bucket a' = None <-> bucket a = None) /\
    trace p' = trace p ++ evs /\
    received evs = [q] /\
    signed_calls evs = call_of q /\
    spent c evs = match bucket a with Some _ => 1 | None => 0 end /\
    (delivered evs = [] \/ delivered evs = [response_ch q]).
Proof.
  intros Hc Hp.
  assert (Hlt : c < length (heap p)) by (eapply lookup_lt_Some; eassumption).
  unfold throttledQuery_turn.
  assert (Er : recv_queryQueue c p =
               Ret (Some q)
                 (log (EvRecv c q)
                    (set_heap (<[c := set_pending rest a]> (heap p)) p))).
  { unfold recv_queryQueue, bind. rewrite (load_Some _ _ _ Hc).
    now rewrite Hp. }
  rewrite (bind_Ret _ _ _ _ _ Er).
  set (p1 := log _ _).
  assert (Hc1 : heap p1 !! c = Some (set_pending rest a))
    by (unfold p1; simpl; now apply list_lookup_insert_eq).
  unfold throttledQuery_body.
  destruct (bucket a) as [b|] eqn:Hb.
  - pose proof (gate_Some c _ b p1 Hc1 Hb) as Hg.
    set (pg := log _ _) in Hg.
    assert (Hcg : heap pg !! c =
                  Some (set_bucket
                          (Some (tokenbucket.SpendToken 1 b (now p1)).1)
                          (set_pending rest a))).
    { unfold pg. simpl. apply list_lookup_insert_eq.
      now rewrite length_insert. }
    destruct (after_gate_effects _ q pg Hcg)
      as (p' & evs & E & Hh & Ht & Hr & Hs & Hsp & Hd).
    assert (Eb : (gate c ;;;
                  a0 <- load c ;;
                  err <- execQuery roundTrip jsonDecode a0 (url q) (form q)
                           (data q) (method q) ;;
                  classify RateLimitCheck c q err) p1 = Ret tt p')
      by (rewrite (bind_Ret _ _ _ _ _ Hg); exact E).
    rewrite (bind_Ret _ _ _ _ _ Eb).
    eexists p', (EvRecv c q :: EvSpendToken c 1 :: evs), _.
    split; [reflexivity|]. rewrite Hh. split; [exact Hcg|].
    split; [reflexivity|]. split; [simpl; split; discriminate|].
    split; [rewrite Ht; unfold pg, p1; simpl; now rewrite <- !app_assoc|].
    simpl. rewrite Hr, Hs. unfold spent in *. simpl.
    rewrite Nat.eqb_refl. simpl. rewrite Hsp. repeat split. exact Hd.
  - pose proof (gate_None c _ p1 Hc1 Hb) as Hg.
    destruct (after_gate_effects _ q p1 Hc1)
      as (p' & evs & E & Hh & Ht & Hr & Hs & Hsp & Hd).
    assert (Eb : (gate c ;;;
                  a0 <- load c ;;
                  err <- execQuery roundTrip jsonDecode a0 (url q) (form q)
                           (data q) (method q) ;;
                  classify RateLimitCheck c q err) p1 = Ret tt p')
      by (rewrite (bind_Ret _ _ _ _ _ Hg); exact E).
    rewrite (bind_Ret _ _ _ _ _ Eb).
    eexists p', (EvRecv c q :: evs), _.
    split; [reflexivity|]. rewrite Hh. split; [exact Hc1|].
    split; [reflexivity|]. split; [simpl; now rewrite Hb|].
    split; [rewrite Ht; unfold p1; simpl; now rewrite <- !app_assoc|].
    simpl. rewrite Hr, Hs. unfold spent in *. simpl. rewrite Hsp.
    repeat split. exact Hd.
Qed.

Lemma loop_serves (qs : list query) :
  forall (n : nat) (p : Process) (a : TwitterApi),
    heap p !! c = Some a ->
    pending (queryQueue a) = qs ->
    length qs <= n ->
    exists p' evs,
      throttledQuery roundTrip jsonDecode RateLimitCheck (S n) c p =
        Ret true p' /\
      pending_of c p' = [] /\
      (bucket_of c p' = Some None <-> bucket a = None) /\
      trace p' = trace p ++ evs /\
      received evs = qs /\
      signed_calls evs = flat_map call_of qs /\
      spent c evs = match bucket a with Some _ => length qs | None => 0 end /\
      delivered evs `sublist_of` map response_ch qs.
Proof.
  induction qs as [|q rest IH]; intros n p a Hc Hp Hn.
  - exists p, []. simpl.
    unfold bind. rewrite (turn_idle _ _ _ c a p Hc Hp).
    unfold pending_of, bucket_of. rewrite Hc, Hp. simpl.
    rewrite app_nil_r. split; [reflexivity|]. split; [reflexivity|].
    split; [split; congruence|].
    repeat split; trivial. now destruct (bucket a).
  - destruct n as [|n]; [simpl in Hn; lia|].
    destruct (turn_serves a q rest p Hc Hp)
      as (p1 & evs1 & a1 & E1 & Hc1 & Hp1 & Hb1 & Ht1 & Hr1 & Hs1 & Hsp1 & Hd1).
    destruct (IH n p1 a1 Hc1 Hp1 ltac:(simpl in Hn; lia))
      as (p' & evs & E & Hpe & Hb & Ht & Hr & Hs & Hsp & Hd).
    exists p', (evs1 ++ evs).
    split.
    { change (throttledQuery roundTrip jsonDecode RateLimitCheck (S (S n)) c p)
        with ((more <- throttledQuery_turn roundTrip jsonDecode
                         RateLimitCheck c ;;
               if more
               then throttledQuery roundTrip jsonDecode RateLimitCheck (S n) c
               else ret true) p).
      now rewrite (bind_Ret _ _ _ _ _ E1). }
    split; [exact Hpe|]. split; [now rewrite Hb|].
    split; [now rewrite Ht, Ht1, app_assoc|].
    rewrite received_app, signed_calls_app, spent_app, delivered_app.
    rewrite Hr1, Hr, Hs1, Hs, Hsp1, Hsp. simpl.
    split; [reflexivity|]. split; [reflexivity|].
    split.
    { destruct (bucket a) eqn:Ha, (bucket a1) eqn:Ha1; trivial.
      - destruct Hb1 as [Hb1 _]. now specialize (Hb1 eq_refl).
      - destruct Hb1 as [_ Hb1]. now specialize (Hb1 eq_refl). }
    destruct Hd1 as [-> | ->]; simpl.
    + now apply sublist_cons.
    + now apply sublist_skip.
Qed.
End Serving.

(** X1. With no response classified as a rate-limit rejection, and with
    or without a bucket, [throttledQuery] given more turns than there are
    pending queries serves them all and goes back to waiting: the queue is
    empty, the queries were received and their signed calls made in the
    order of the queue, one token was spent per query if and only if the
    client has a bucket, the bucket is present afterwards exactly if it
    was before, and the result channels written to are those of the
    queries, in that order. *)
Theorem queue_is_drained
    (roundTrip : nat -> Verb -> oauth.Client -> oauth.Credentials ->
                 string -> Values -> http.Response + string)
    (jsonDecode : string -> option Val -> option Val * option string)
    (RateLimitCheck : ApiError -> Time -> bool * Time)
    (c fuel : nat) (p : Process) (a : TwitterApi) :
  heap p !! c = Some a ->
  (forall e t, (RateLimitCheck e t).1 = false) ->
  length (pending (queryQueue a)) < fuel ->
  exists p' evs,
    throttledQuery roundTrip jsonDecode RateLimitCheck fuel c p =
      Ret true p' /\
    pending_of c p' = [] /\
    (bucket_of c p' = Some None <-> bucket a = None) /\
    trace p' = trace p ++ evs /\
    received evs = pending (queryQueue a) /\
    signed_calls evs = flat_map call_of (pending (queryQueue a)) /\
    spent c evs =
      match bucket a with
      | Some _ => length (pending (queryQueue a))
      | None => 0
      end /\
    delivered evs `sublist_of` map response_ch (pending (queryQueue a)).
Proof.
  intros Hc Hno Hfuel.
  destruct fuel as [|n]; [lia|].
  apply (loop_serves roundTrip jsonDecode RateLimitCheck c Hno
           (pending (queryQueue a)) n p a Hc eq_refl).
  lia.
Qed.

Lemma queue_is_drained_witness :
  let transport :=
    Sample.scripted [Sample.ok "{1}"; Sample.status 500 "oops"; Sample.ok "{3}"] in
  let q1 := Sample.get "u1" 1 11 in
  let q2 := Sample.post "u2" 2 12 in
  let q3 := Sample.get "u3" 3 13 in
  let p :=
    final ((c <- NewTwitterApi "tok" "sec" ;;
            EnableRateLimiting c 1%Z 2%Z ;;;
            submit c q1 ;;; submit c q2 ;;; submit c q3) init_Process) in
  exists p' evs,
    throttledQuery transport Sample.decode Sample.never 4 0 p = Ret true p' /\
    pending_of 0 p' = [] /\
    trace p' = trace p ++ evs /\
    received evs = [q1; q2; q3] /\
    spent 0 evs = 3 /\
    delivered evs `sublist_of` [11; 12; 13].
Proof.
  intros transport q1 q2 q3 p.
  destruct (queue_is_drained transport Sample.decode Sample.never 0 4 p _
              eq_refl (fun _ _ => eq_refl))
    as (p' & evs & E & Hp & _ & Ht & Hr & _ & Hs & Hd).
  { simpl. lia. }
  exists p', evs. repeat (split; [assumption|]). exact Hd.
Defined.

(** ** What is delivered *)

#[local] Instance answered_preorder : PreOrder answered.
Proof.
  split.
  - intros p. exists []. rewrite app_nil_r.
    split; [reflexivity|]. split; constructor.
  - intros p1 p2 p3 (e1 & E1 & S1 & F1) (e2 & E2 & S2 & F2).
    exists (e1 ++ e2). rewrite E2, E1, app_assoc. split; [reflexivity|].
    rewrite answers_app, requests_app.
    split; [now apply sublist_app|]. apply Forall_app. now split.
Qed.

Lemma silent_events evs :
  Forall (fun e => is_Deliver e = false /\ is_Recv e = false) evs ->
  answers evs = [] /\ received evs = [] /\ Forall nil_err evs.
Proof.
  induction 1 as [|e evs [Hd Hr] _ (IHa & IHr & IHn)]; [repeat constructor|].
  destruct e; simpl in *; try discriminate;
    (split; [assumption|]; split; [assumption|]; now constructor).
Qed.

Section Answers.
Variable roundTrip :
  nat -> Verb -> oauth.Client -> oauth.Credentials -> string -> Values ->
  http.Response + string.
Variable jsonDecode : string -> option Val -> option Val * option string.
Variable RateLimitCheck : ApiError -> Time -> bool * Time.

Local Abbreviation S :=
  (inv_rel (fun _ => True)
           (fun e => is_Deliver e = false /\ is_Recv e = false)).

Ltac silent_op := intros p HI; run_op; (split; [exact I|trace_ext]).

Lemma silent_send c q : preserves S (send_queryQueue c q).
Proof. unfold send_queryQueue. silent_op. Qed.

Lemma silent_submit c q : preserves S (submit c q).
Proof. unfold submit. silent_op. Qed.

Lemma silent_Drain c : preserves S (bucket_Drain c).
Proof. unfold bucket_Drain. silent_op. Qed.

Lemma silent_SpendToken c n : preserves S (bucket_SpendToken c n).
Proof. unfold bucket_SpendToken. silent_op. Qed.

Lemma silent_sleep t : preserves S (sleep_until t).
Proof. silent_op. Qed.

Lemma silent_New tok sec : preserves S (NewTwitterApi tok sec).
Proof. unfold NewTwitterApi. silent_op. Qed.

Lemma silent_Enable c r b : preserves S (EnableRateLimiting c r b).
Proof. unfold EnableRateLimiting. silent_op. Qed.

Lemma silent_Disable c : preserves S (DisableRateLimiting c).
Proof. unfold DisableRateLimiting. silent_op. Qed.

Lemma silent_SetDelay c t : preserves S (SetDelay c t).
Proof. unfold SetDelay. silent_op. Qed.

Lemma silent_GetDelay c : preserves S (GetDelay c).
Proof. unfold GetDelay. silent_op. Qed.

Lemma silent_SetConsumerKey k : preserves S (SetConsumerKey k).
Proof. silent_op. Qed.

Lemma silent_SetConsumerSecret s : preserves S (SetConsumerSecret s).
Proof. silent_op. Qed.

Lemma silent_execQuery a u f d m :
  preserves S (execQuery roundTrip jsonDecode a u f d m).
Proof.
  intros p HI.
  destruct (execQuery_frame roundTrip jsonDecode a u f d m p)
    as (err & tm & ->).
  destruct (m =? _GET)%Z; [|destruct (m =? _POST)%Z]; simpl;
    (split; [exact I|trace_ext]).
Qed.

Hint Resolve silent_send silent_submit silent_Drain silent_SpendToken
  silent_sleep silent_New silent_Enable silent_Disable silent_SetDelay
  silent_GetDelay silent_SetConsumerKey silent_SetConsumerSecret
  silent_execQuery : inv.

Lemma silent_answers_to q {A} (m : M A) p :
  preserves S m -> answers_to q p (final (m p)).
Proof.
  intros H. destruct (H p I) as (_ & evs & E & F).
  destruct (silent_events evs F) as (Ha & Hr & Hn).
  exists evs. repeat split; trivial. now left.
Qed.

Lemma answers_to_bind q {A B} (m : M A) (k : A -> M B) p :
  preserves S m ->
  (forall a p1, answers_to q p1 (final (k a p1))) ->
  answers_to q p (final (bind m k p)).
Proof.
  intros Hm Hk.
  destruct (Hm p I) as (_ & evs & E & F).
  destruct (silent_events evs F) as (Ha & Hr & Hn).
  unfold bind. destruct (m p) as [a p1|p1|p1]; simpl in *;
    try (exists evs; repeat split; trivial; now left).
  destruct (Hk a p1) as (evs2 & E2 & Hr2 & Ha2 & Hn2).
  exists (evs ++ evs2). rewrite E2, E, app_assoc.
  rewrite received_app, answers_app, Hr, Ha, Hr2. simpl.
  repeat split; trivial. apply Forall_app. now split.
Qed.

Lemma classify_answers c q err p :
  answers_to q p (final (classify RateLimitCheck c q err p)).
Proof.
  unfold classify. destruct err as [e|].
  - apply silent_answers_to. destruct e; inv_frame.
  - exists [EvDeliver (response_ch q) {| rdata := data q; rerr := None |}].
    simpl. repeat split; [now right|repeat constructor].
Qed.

Lemma body_answers c q p :
  answers_to q p
    (final (throttledQuery_body roundTrip jsonDecode RateLimitCheck c q p)).
Proof.
  unfold throttledQuery_body.
  apply answers_to_bind; [unfold gate; inv_frame|intros _ p1].
  apply answers_to_bind; [inv_frame|intros a p2].
  apply answers_to_bind; [inv_frame|intros err p3].
  apply classify_answers.
Qed.

Lemma answered_turn c :
  preserves answered
    (throttledQuery_turn roundTrip jsonDecode RateLimitCheck c).
Proof.
  intros p. unfold throttledQuery_turn, recv_queryQueue.
  unfold bind at 1. unfold bind at 1. unfold load.
  destruct (heap p !! c) as [a|]; [|simpl; reflexivity].
  destruct (pending (queryQueue a)) as [|q rest]; [simpl; reflexivity|].
  unfold bind at 1 2, store, emit. simpl.
  set (p1 := log _ _).
  destruct (body_answers c q p1) as (evs & E & Hr & Ha & Hn).
  exists (EvRecv c q :: evs). split.
  { unfold bind.
    destruct (throttledQuery_body _ _ _ c q p1); simpl in *;
      rewrite E; unfold p1; simpl; now rewrite <- app_assoc. }
  unfold requests. simpl. rewrite Hr. simpl.
  split; [|now constructor].
  destruct Ha as [-> | ->]; [apply sublist_nil_l|reflexivity].
Qed.

Lemma silent_answered {A} (m : M A) : preserves S m -> preserves answered m.
Proof.
  intros H p. destruct (H p I) as (_ & evs & E & F).
  destruct (silent_events evs F) as (Ha & Hr & Hn).
  exists evs. split; [exact E|]. split; [|exact Hn].
  rewrite Ha. apply sublist_nil_l.
Qed.

Lemma answered_act c a :
  preserves answered (act roundTrip jsonDecode RateLimitCheck c a).
Proof.
  destruct a as [q|]; simpl; [apply silent_answered, silent_submit|].
  assert (H : preserves answered
    (throttledQuery_turn roundTrip jsonDecode RateLimitCheck c ;;; ret tt))
    by (inv_frame; apply answered_turn).
  intros p. destruct (bool_decide _); [simpl; reflexivity|apply H].
Qed.

Lemma answered_run c (l : list Action) :
  preserves answered (run roundTrip jsonDecode RateLimitCheck c l).
Proof.
  induction l as [|a l IH]; simpl; [inv_frame|].
  apply preserves_meanwhile; [typeclasses eauto| |exact IH].
  apply answered_act.
Qed.
End Answers.

(** X2. For one client, with callers submitting and its dispatcher
    taking turns in any order, and with any transport, decoder and
    classification: every result the dispatcher of the client writes
    carries a nil error, and it goes to the result channel, with the
    output target, of a query that this dispatcher received before; taken
    in order, the results of the client answer a subsequence of the
    queries its dispatcher received. *)
Theorem results_answer_received_queries
    (roundTrip : nat -> Verb -> oauth.Client -> oauth.Credentials ->
                 string -> Values -> http.Response + string)
    (jsonDecode : string -> option Val -> option Val * option string)
    (RateLimitCheck : ApiError -> Time -> bool * Time)
    (c : nat) (l : list Action) (p : Process) :
  exists evs,
    trace (final (run roundTrip jsonDecode RateLimitCheck c l p)) =
      trace p ++ evs /\
    answers evs `sublist_of` requests evs /\
    Forall nil_err evs.
Proof. apply answered_run. Qed.

(** X3. Callers and the dispatcher of a client taking turns in any order,
    with any transport, decoder and classification, retries, parking and
    panics included: the results written to a result channel, together
    with the pending queries that carry it, never outnumber what was
    there before plus the queries submitted with that channel.  No result
    is written twice. *)
Theorem results_never_outnumber_queries
    (roundTrip : nat -> Verb -> oauth.Client -> oauth.Credentials ->
                 string -> Values -> http.Response + string)
    (jsonDecode : string -> option Val -> option Val * option string)
    (RateLimitCheck : ApiError -> Time -> bool * Time)
    (ch c : nat) (l : list Action) (p : Process) :
  let p' := final (run roundTrip jsonDecode RateLimitCheck c l p) in
  length (deliveries ch (trace p')) + asked ch (pending_of c p') <=
  length (deliveries ch (trace p)) + asked ch (pending_of c p) +
  asked ch (submitted l).
Proof. apply (run_owed roundTrip jsonDecode RateLimitCheck ch c l p). Qed.

(** ** What an operation leaves alone *)

Lemma identity_of_insert_eq (c : nat) (a a' : TwitterApi)
    (h : list TwitterApi) :
  h !! c = Some a ->
  Credentials a' = Credentials a ->
  cap (queryQueue a') = cap (queryQueue a) ->
  (fun a => (Credentials a, cap (queryQueue a))) <$> <[c := a']> h !! c =
  (fun a => (Credentials a, cap (queryQueue a))) <$> h !! c.
Proof.
  intros E Hc Hq. rewrite list_lookup_insert_eq
    by (eapply lookup_lt_Some; eassumption).
  rewrite E. simpl. now rewrite Hc, Hq.
Qed.

Section Identity.
Variable roundTrip :
  nat -> Verb -> oauth.Client -> oauth.Credentials -> string -> Values ->
  http.Response + string.
Variable jsonDecode : string -> option Val -> option Val * option string.
Variable RateLimitCheck : ApiError -> Time -> bool * Time.
Variable c : nat.
Variable id : oauth.Credentials * nat.

Local Abbreviation R :=
  (inv_rel (fun p => identity_of c p = Some id) (fun _ => True)).

Ltac id_state :=
  match goal with
  | |- _ <$> <[?c' := _]> _ !! _ = _ =>
      destruct (decide (c' = c)) as [->|?];
      [erewrite identity_of_insert_eq by (eassumption || reflexivity);
       assumption
      |rewrite list_lookup_insert_ne by assumption; assumption]
  | |- _ <$> (_ ++ [_]) !! _ = _ =>
      rewrite lookup_app_l; [assumption|];
      match goal with
      | H : _ <$> ?h !! ?c = Some _ |- _ =>
          destruct (h !! c) eqn:?; [|discriminate];
          eapply lookup_lt_Some; eassumption
      end
  | |- _ => assumption
  end.

Ltac id_op :=
  intros p HI; unfold identity_of in *; run_op;
  (split; [id_state|trace_ext]).

Lemma id_recv c' : preserves R (recv_queryQueue c').
Proof. unfold recv_queryQueue. id_op. Qed.

Lemma id_send c' q : preserves R (send_queryQueue c' q).
Proof. unfold send_queryQueue. id_op. Qed.

Lemma id_submit c' q : preserves R (submit c' q).
Proof. unfold submit. id_op. Qed.

Lemma id_response ch r : preserves R (send_response ch r).
Proof. id_op. Qed.

Lemma id_Drain c' : preserves R (bucket_Drain c').
Proof. unfold bucket_Drain. id_op. Qed.

Lemma id_SpendToken c' n : preserves R (bucket_SpendToken c' n).
Proof. unfold bucket_SpendToken. id_op. Qed.

Lemma id_sleep t : preserves R (sleep_until t).
Proof. id_op. Qed.

Lemma id_New tok sec : preserves R (NewTwitterApi tok sec).
Proof. unfold NewTwitterApi. id_op. Qed.

Lemma id_Enable c' r b : preserves R (EnableRateLimiting c' r b).
Proof. unfold EnableRateLimiting. id_op. Qed.

Lemma id_Disable c' : preserves R (DisableRateLimiting c').
Proof. unfold DisableRateLimiting. id_op. Qed.

Lemma id_SetDelay c' t : preserves R (SetDelay c' t).
Proof. unfold SetDelay. id_op. Qed.

Lemma id_GetDelay c' : preserves R (GetDelay c').
Proof. unfold GetDelay. id_op. Qed.

Lemma id_SetConsumerKey k : preserves R (SetConsumerKey k).
Proof. id_op. Qed.

Lemma id_SetConsumerSecret s : preserves R (SetConsumerSecret s).
Proof. id_op. Qed.

Lemma id_execQuery a u f d m :
  preserves R (execQuery roundTrip jsonDecode a u f d m).
Proof.
  intros p HI.
  destruct (execQuery_frame roundTrip jsonDecode a u f d m p)
    as (err & tm & ->).
  destruct (m =? _GET)%Z; [|destruct (m =? _POST)%Z]; simpl;
    (split; [exact HI|trace_ext]).
Qed.

Hint Resolve id_recv id_send id_submit id_response id_Drain id_SpendToken
  id_sleep id_New id_Enable id_Disable id_SetDelay id_GetDelay
  id_SetConsumerKey id_SetConsumerSecret id_execQuery : inv.

Lemma id_turn c' :
  preserves R (throttledQuery_turn roundTrip jsonDecode RateLimitCheck c').
Proof.
  unfold throttledQuery_turn, throttledQuery_body, gate, classify.
  inv_frame.
Qed.

Lemma id_act c' a :
  preserves R (act roundTrip jsonDecode RateLimitCheck c' a).
Proof.
  destruct a; simpl; [apply id_submit|].
  assert (H : preserves R
    (throttledQuery_turn roundTrip jsonDecode RateLimitCheck c' ;;; ret tt))
    by (inv_frame; apply id_turn).
  intros p. destruct (bool_decide _); [|apply H].
  intros HI. split; [exact HI|trace_ext].
Qed.

Lemma id_steps (l : list Op) :
  preserves R (steps roundTrip jsonDecode RateLimitCheck l).
Proof.
  induction l as [|o l IH]; simpl; [inv_frame|].
  apply preserves_meanwhile; [typeclasses eauto| |exact IH].
  destruct o; simpl; try (inv_frame; fail).
  apply id_act.
Qed.
End Identity.

(** X4. The access credentials of a client and the capacity of its queue
    are fixed when [NewTwitterApi] makes it: whatever the goroutines of
    the process do afterwards, on this client or on others, the client
    keeps the token and secret it was made with and its queue stays
    without a buffer. *)
Theorem client_identity_is_fixed
    (roundTrip : nat -> Verb -> oauth.Client -> oauth.Credentials ->
                 string -> Values -> http.Response + string)
    (jsonDecode : string -> option Val -> option Val * option string)
    (RateLimitCheck : ApiError -> Time -> bool * Time)
    (access_token access_token_secret : string) (ops : list Op)
    (p : Process) :
  exists c p',
    NewTwitterApi access_token access_token_secret p = Ret c p' /\
    identity_of c
      (final (steps roundTrip jsonDecode RateLimitCheck ops p')) =
    Some ({| oauth.Token := access_token;
             oauth.Secret := access_token_secret |}, 0).
Proof.
  exists (length (heap p)). eexists. split; [reflexivity|].
  refine (proj1 (id_steps roundTrip jsonDecode RateLimitCheck _ _ ops _ _)).
  unfold identity_of. simpl.
  rewrite lookup_app_r by reflexivity. now rewrite Nat.sub_diag.
Qed.

Section Untouched.
Variable roundTrip :
  nat -> Verb -> oauth.Client -> oauth.Credentials -> string -> Values ->
  http.Response + string.
Variable jsonDecode : string -> option Val -> option Val * option string.
Variable RateLimitCheck : ApiError -> Time -> bool * Time.
Variable c : nat.
Variable a : TwitterApi.

Local Abbreviation R :=
  (inv_rel (fun p => heap p !! c = Some a) (fun _ => True)).

Ltac same_state :=
  match goal with
  | |- <[_ := _]> _ !! _ = _ =>
      rewrite list_lookup_insert_ne by assumption; assumption
  | |- (_ ++ [_]) !! _ = _ =>
      rewrite lookup_app_l; [assumption|];
      eapply lookup_lt_Some; eassumption
  | |- _ => assumption
  end.

Ltac same_op := intros p HI; run_op; (split; [same_state|trace_ext]).

Lemma same_recv c' : c' <> c -> preserves R (recv_queryQueue c').
Proof. intros N. unfold recv_queryQueue. same_op. Qed.

Lemma same_send c' q : c' <> c -> preserves R (send_queryQueue c' q).
Proof. intros N. unfold send_queryQueue. same_op. Qed.

Lemma same_submit c' q : c' <> c -> preserves R (submit c' q).
Proof. intros N. unfold submit. same_op. Qed.

Lemma same_response ch r : preserves R (send_response ch r).
Proof. same_op. Qed.

Lemma same_Drain c' : c' <> c -> preserves R (bucket_Drain c').
Proof. intros N. unfold bucket_Drain. same_op. Qed.

Lemma same_SpendToken c' n : c' <> c -> preserves R (bucket_SpendToken c' n).
Proof. intros N. unfold bucket_SpendToken. same_op. Qed.

Lemma same_sleep t : preserves R (sleep_until t).
Proof. same_op. Qed.

Lemma same_New tok sec : preserves R (NewTwitterApi tok sec).
Proof. unfold NewTwitterApi. same_op. Qed.

Lemma same_Enable c' r b : c' <> c -> preserves R (EnableRateLimiting c' r b).
Proof. intros N. unfold EnableRateLimiting. same_op. Qed.

Lemma same_Disable c' : c' <> c -> preserves R (DisableRateLimiting c').
Proof. intros N. unfold DisableRateLimiting. same_op. Qed.

Lemma same_SetDelay c' t : c' <> c -> preserves R (SetDelay c' t).
Proof. intros N. unfold SetDelay. same_op. Qed.

Lemma same_GetDelay c' : preserves R (GetDelay c').
Proof. unfold GetDelay. same_op. Qed.

Lemma same_SetConsumerKey k : preserves R (SetConsumerKey k).
Proof. same_op. Qed.

Lemma same_SetConsumerSecret s : preserves R (SetConsumerSecret s).
Proof. same_op. Qed.

Lemma same_execQuery a' u f d m :
  preserves R (execQuery roundTrip jsonDecode a' u f d m).
Proof.
  intros p HI.
  destruct (execQuery_frame roundTrip jsonDecode a' u f d m p)
    as (err & tm & ->).
  destruct (m =? _GET)%Z; [|destruct (m =? _POST)%Z]; simpl;
    (split; [exact HI|trace_ext]).
Qed.

Hint Resolve same_recv same_send same_submit same_response same_Drain
  same_SpendToken same_sleep same_New same_Enable same_Disable same_SetDelay
  same_GetDelay same_SetConsumerKey same_SetConsumerSecret same_execQuery
  : inv.

Lemma same_turn c' :
  c' <> c ->
  preserves R (throttledQuery_turn roundTrip jsonDecode RateLimitCheck c').
Proof.
  intros N.
  unfold throttledQuery_turn, throttledQuery_body, gate, classify.
  inv_frame.
Qed.

Lemma same_act c' x :
  c' <> c -> preserves R (act roundTrip jsonDecode RateLimitCheck c' x).
Proof.
  intros N. destruct x; simpl; [now apply same_submit|].
  assert (H : preserves R
    (throttledQuery_turn roundTrip jsonDecode RateLimitCheck c' ;;; ret tt))
    by (inv_frame; now apply same_turn).
  intros p. destruct (bool_decide _); [|apply H].
  intros HI. split; [exact HI|trace_ext].
Qed.

(** In terms of the modelled bucket, whose tokens change with its own
    calls only. *)
Lemma same_steps (l : list Op) :
  forallb (fun o => negb (addresses c o)) l = true ->
  preserves R (steps roundTrip jsonDecode RateLimitCheck l).
Proof.
  induction l as [|o l IH]; simpl; [intros _; inv_frame|].
  intros [Ho Hl]%andb_prop.
  assert (N : forall c', addresses c o = Nat.eqb c' c -> c' <> c).
  { intros c' E ->. rewrite Nat.eqb_refl in E. rewrite E in Ho.
    discriminate. }
  apply preserves_meanwhile; [typeclasses eauto| |exact (IH Hl)].
  destruct o; simpl;
    try (inv_frame; fail);
    try (apply same_Enable, N; reflexivity);
    try (apply same_Disable, N; reflexivity);
    try (apply same_SetDelay, N; reflexivity).
  apply same_act, N. reflexivity.
Qed.
End Untouched.

(** X5. Clients do not interfere: configuration calls on other clients,
    submissions to them, turns of their dispatchers (rate-limit retries and
    panics included), new clients and changes of the consumer credentials
    leave to a client its credentials, its queue with the pending queries
    in their order, and its bucket if it has one, with the rate and the
    capacity of that bucket.  Nothing is said of the tokens in the
    bucket. *)
Theorem other_clients_are_untouched
    (roundTrip : nat -> Verb -> oauth.Client -> oauth.Credentials ->
                 string -> Values -> http.Response + string)
    (jsonDecode : string -> option Val -> option Val * option string)
    (RateLimitCheck : ApiError -> Time -> bool * Time)
    (c : nat) (a : TwitterApi) (ops : list Op) (p : Process) :
  heap p !! c = Some a ->
  forallb (fun o => negb (addresses c o)) ops = true ->
  settings <$>
    heap (final (steps roundTrip jsonDecode RateLimitCheck ops p)) !! c =
  Some (settings a).
Proof.
  intros Hc Hops.
  now rewrite (proj1 (same_steps roundTrip jsonDecode RateLimitCheck c a ops
                        Hops p Hc)).
Qed.

Lemma other_clients_are_untouched_witness :
  let transport := Sample.scripted [Sample.tooMany "100"; Sample.ok "{}"] in
  let p :=
    final ((c0 <- NewTwitterApi "tok" "sec" ;;
            c1 <- NewTwitterApi "tok1" "sec1" ;;
            EnableRateLimiting c0 1%Z 5%Z ;;;
            submit c0 (Sample.get "mine" 1 11)) init_Process) in
  let ops :=
    [OpEnableRateLimiting 1 2%Z 3%Z; OpAct 1 (Submit (Sample.get "u" 2 12));
     OpAct 1 Turn; OpNewTwitterApi "tok2" "sec2"; OpSetConsumerKey "key";
     OpAct 2 (Submit (Sample.post "v" 3 13)); OpAct 2 Turn;
     OpDisableRateLimiting 1; OpSetDelay 2 7%Z] in
  settings <$>
    heap (final (steps transport Sample.decode Sample.rateLimitCheck ops p))
      !! 0 =
  Some ({| oauth.Token := "tok"; oauth.Secret := "sec" |},
        {| cap := 0; pending := [Sample.get "mine" 1 11] |},
        Some (1%Z, 5%Z)).
Proof.
  intros transport p ops.
  exact (other_clients_are_untouched transport Sample.decode
           Sample.rateLimitCheck 0
           {| Credentials := {| oauth.Token := "tok"; oauth.Secret := "sec" |};
              queryQueue :=
                {| cap := 0; pending := [Sample.get "mine" 1 11] |};
              bucket := Some (tokenbucket.NewBucket 1%Z 5%Z) |}
           ops p eq_refl eq_refl).
Defined.

(** ** Switching rate limiting on and off *)

Lemma set_heap_same p : set_heap (heap p) p = p.
Proof. now destruct p. Qed.

(** X6. [EnableRateLimiting] gives the client a new bucket made from the
    rate and the size it is given, and changes nothing else: the
    credentials and the queue of the client, the other clients, the
    consumer credentials and the events are as before.  The later of two
    calls wins: enabling twice keeps the second bucket only, disabling
    after enabling is disabling, enabling after disabling is enabling, and
    disabling a client that has no bucket changes nothing. *)
Theorem rate_limiting_toggle (c : nat) (a : TwitterApi) (p : Process)
    (rate rate' : Time) (n n' : Z) :
  heap p !! c = Some a ->
  (exists p1 a1,
     EnableRateLimiting c rate n p = Ret tt p1 /\
     heap p1 !! c = Some a1 /\
     Credentials a1 = Credentials a /\
     queryQueue a1 = queryQueue a /\
     bucket a1 = Some (tokenbucket.NewBucket rate n) /\
     (forall c', c' <> c -> heap p1 !! c' = heap p !! c') /\
     oauthClient p1 = oauthClient p /\
     trace p1 = trace p) /\
  (EnableRateLimiting c rate n ;;; EnableRateLimiting c rate' n') p =
    EnableRateLimiting c rate' n' p /\
  (EnableRateLimiting c rate n ;;; DisableRateLimiting c) p =
    DisableRateLimiting c p /\
  (DisableRateLimiting c ;;; EnableRateLimiting c rate n) p =
    EnableRateLimiting c rate n p /\
  (bucket a = None -> DisableRateLimiting c p = Ret tt p).
Proof.
  intros Hc.
  assert (Hlt : c < length (heap p)) by (eapply lookup_lt_Some; eassumption).
  split; [|split; [|split; [|split]]].
  - eexists _, _. split.
    { unfold EnableRateLimiting, bind. rewrite (load_Some _ _ _ Hc).
      reflexivity. }
    simpl. split; [now apply list_lookup_insert_eq|].
    repeat split. intros c' N. now apply list_lookup_insert_ne.
  - unfold EnableRateLimiting, bind. rewrite (load_Some _ _ _ Hc). simpl.
    unfold load. simpl. rewrite list_lookup_insert_eq by assumption.
    unfold store. simpl. now rewrite list_insert_insert_eq.
  - unfold EnableRateLimiting, DisableRateLimiting, bind.
    rewrite (load_Some _ _ _ Hc). simpl.
    unfold load. simpl. rewrite list_lookup_insert_eq by assumption.
    unfold store. simpl. now rewrite list_insert_insert_eq.
  - unfold EnableRateLimiting, DisableRateLimiting, bind.
    rewrite (load_Some _ _ _ Hc). simpl.
    unfold load. simpl. rewrite list_lookup_insert_eq by assumption.
    unfold store. simpl. now rewrite list_insert_insert_eq.
  - intros Hb. unfold DisableRateLimiting, bind.
    rewrite (load_Some _ _ _ Hc). unfold store.
    assert (E : set_bucket None a = a) by (destruct a; simpl in *; now subst).
    rewrite E, list_insert_id by assumption. now rewrite set_heap_same.
Qed.

Lemma rate_limiting_toggle_witness :
  let p :=
    final ((c <- NewTwitterApi "tok" "sec" ;;
            submit c (Sample.get "u" 1 11)) init_Process) in
  (exists p1,
     EnableRateLimiting 0 2%Z 5%Z p = Ret tt p1 /\
     pending_of 0 p1 = [Sample.get "u" 1 11] /\
     bucket_of 0 p1 = Some (Some (tokenbucket.NewBucket 2%Z 5%Z))) /\
  DisableRateLimiting 0 p = Ret tt p.
Proof.
  intros p.
  destruct (rate_limiting_toggle 0 _ p 2%Z 3%Z 5%Z 7%Z eq_refl)
    as ((p1 & a1 & E & Hc & _ & Hq & Hb & _) & _ & _ & _ & Hd).
  split; [|exact (Hd eq_refl)].
  exists p1. split; [exact E|].
  unfold pending_of, bucket_of. rewrite Hc. simpl. rewrite Hq, Hb.
  split; reflexivity.
Defined.

(** X7. On a client that has a bucket, [SetDelay] sets the refill
    interval and nothing else (capacity, tokens, queue, credentials are as
    before), [GetDelay] reads it back without changing anything, and the
    later of two [SetDelay] wins.  Right after [EnableRateLimiting],
    [GetDelay] gives the rate that was passed to it. *)
Theorem delay_round_trip (c : nat) (a : TwitterApi) (b : tokenbucket.Bucket)
    (p : Process) (t t' : Time) :
  heap p !! c = Some a ->
  bucket a = Some b ->
  GetDelay c p = Ret (tokenbucket.rate b) p /\
  (exists p1 a1 b1,
     SetDelay c t p = Ret tt p1 /\
     GetDelay c p1 = Ret t p1 /\
     heap p1 !! c = Some a1 /\
     Credentials a1 = Credentials a /\
     queryQueue a1 = queryQueue a /\
     bucket a1 = Some b1 /\
     tokenbucket.capacity b1 = tokenbucket.capacity b /\
     tokenbucket.tokens b1 = tokenbucket.tokens b /\
     trace p1 = trace p) /\
  (SetDelay c t ;;; SetDelay c t') p = SetDelay c t' p /\
  (forall rate n,
     exists p1,
       EnableRateLimiting c rate n p = Ret tt p1 /\
       GetDelay c p1 = Ret rate p1).
Proof.
  intros Hc Hb.
  assert (Hlt : c < length (heap p)) by (eapply lookup_lt_Some; eassumption).
  split; [|split; [|split]].
  - unfold GetDelay, bind. rewrite (load_Some _ _ _ Hc). now rewrite Hb.
  - eexists _, _, _. split.
    { unfold SetDelay, bind. rewrite (load_Some _ _ _ Hc). rewrite Hb.
      reflexivity. }
    split.
    { unfold GetDelay, bind, load. simpl.
      rewrite list_lookup_insert_eq by assumption. reflexivity. }
    simpl. split; [now apply list_lookup_insert_eq|]. repeat split.
  - unfold SetDelay, bind. rewrite (load_Some _ _ _ Hc). rewrite Hb. simpl.
    unfold load. simpl. rewrite list_lookup_insert_eq by assumption.
    unfold store. simpl. now rewrite list_insert_insert_eq.
  - intros rate n. eexists. split.
    { unfold EnableRateLimiting, bind. rewrite (load_Some _ _ _ Hc).
      reflexivity. }
    unfold GetDelay, bind, load. simpl.
    rewrite list_lookup_insert_eq by assumption. reflexivity.
Qed.

Lemma delay_round_trip_witness :
  let p :=
    final ((c <- NewTwitterApi "tok" "sec" ;;
            EnableRateLimiting c 2%Z 5%Z) init_Process) in
  GetDelay 0 p = Ret 2%Z p /\
  exists p1, SetDelay 0 9%Z p = Ret tt p1 /\ GetDelay 0 p1 = Ret 9%Z p1.
Proof.
  intros p.
  destruct (delay_round_trip 0 _ _ p 9%Z 1%Z eq_refl eq_refl)
    as (Hg & (p1 & a1 & b1 & Es & Eg & _) & _).
  split; [exact Hg|]. exists p1. split; [exact Es|exact Eg].
Defined.

(** ** One signed call *)

Section SignedCall.
Variable roundTrip :
  nat -> Verb -> oauth.Client -> oauth.Credentials -> string -> Values ->
  http.Response + string.
Variable jsonDecode : string -> option Val -> option Val * option string.

(** What [apiGet] and [apiPost] have in common. *)
Lemma api_call_effects v (c : TwitterApi) u f d p :
  exists err p1,
    (r <- oauthClient_call roundTrip v (Credentials c) u f ;;
     match r with
     | inr e => ret (Some (TransportError e))
     | inl resp => decodeResponse jsonDecode resp d
     end) p = Ret err p1 /\
    heap p1 = heap p /\ oauthClient p1 = oauthClient p /\
    now p1 = now p /\ calls p1 = S (calls p) /\
    trace p1 =
      trace p ++ [EvSigned v (oauth.ClientCredentials (oauthClient p))
                           (Credentials c) u f] /\
    (forall d', d' <> d -> targets p1 !! d' = targets p !! d') /\
    (forall msg,
       roundTrip (calls p) v (oauthClient p) (Credentials c) u f = inr msg ->
       err = Some (TransportError msg) /\ targets p1 = targets p) /\
    (forall resp,
       roundTrip (calls p) v (oauthClient p) (Credentials c) u f = inl resp ->
       http.StatusCode resp <> 200%Z ->
       err = Some (ApiErrorPtr (newApiError resp)) /\
       targets p1 = targets p) /\
    (forall resp,
       roundTrip (calls p) v (oauthClient p) (Credentials c) u f = inl resp ->
       http.StatusCode resp = 200%Z ->
       err = DecodeError <$> (jsonDecode (http.Body resp) (targets p !! d)).2 /\
       targets p1 !! d = (jsonDecode (http.Body resp) (targets p !! d)).1).
Proof.
  unfold bind. rewrite oauthClient_call_eq.
  destruct (roundTrip (calls p) v (oauthClient p) (Credentials c) u f)
    as [resp|msg] eqn:Ert.
  - unfold decodeResponse.
    destruct (Z.eqb_spec (http.StatusCode resp) 200) as [Hs|Hs]; simpl.
    + unfold json_Decode. eexists _, _. split; [reflexivity|]. simpl.
      repeat split; intros; simplify_eq; try done.
      * now apply lookup_partial_alter_ne.
      * apply lookup_partial_alter_eq.
    + eexists _, _. split; [reflexivity|]. simpl.
      repeat split; intros; simplify_eq; done.
  - eexists _, _. split; [reflexivity|]. simpl.
    repeat split; intros; simplify_eq; done.
Qed.
End SignedCall.

(** X8. [apiGet] makes exactly one signed GET, with the OAuth client of
    the process and the credentials of the client, and touches neither
    the clients nor the clock.  If the transport fails, its error is
    returned as it is and no output target changes; if the status is not
    200 the result is the API error built from the response and no output
    target changes; on a 200 the result is what the decoder says and the
    target given holds what the decoder produced.  In every case the
    other output targets are as before.  [apiPost] does the same with a
    signed POST. *)
Theorem api_call_behaviour
    (roundTrip : nat -> Verb -> oauth.Client -> oauth.Credentials ->
                 string -> Values -> http.Response + string)
    (jsonDecode : string -> option Val -> option Val * option string)
    (v : Verb) (c : TwitterApi) (u : string) (f : Values) (d : nat)
    (p : Process) :
  exists err p1,
    (match v with
     | GET => apiGet roundTrip jsonDecode c u f d
     | POST => apiPost roundTrip jsonDecode c u f d
     end) p = Ret err p1 /\
    heap p1 = heap p /\ oauthClient p1 = oauthClient p /\
    now p1 = now p /\ calls p1 = S (calls p) /\
    trace p1 =
      trace p ++ [EvSigned v (oauth.ClientCredentials (oauthClient p))
                           (Credentials c) u f] /\
    (forall d', d' <> d -> targets p1 !! d' = targets p !! d') /\
    (forall msg,
       roundTrip (calls p) v (oauthClient p) (Credentials c) u f = inr msg ->
       err = Some (TransportError msg) /\ targets p1 = targets p) /\
    (forall resp,
       roundTrip (calls p) v (oauthClient p) (Credentials c) u f = inl resp ->
       http.StatusCode resp <> 200%Z ->
       err = Some (ApiErrorPtr (newApiError resp)) /\
       targets p1 = targets p) /\
    (forall resp,
       roundTrip (calls p) v (oauthClient p) (Credentials c) u f = inl resp ->
       http.StatusCode resp = 200%Z ->
       err = DecodeError <$> (jsonDecode (http.Body resp) (targets p !! d)).2 /\
       targets p1 !! d = (jsonDecode (http.Body resp) (targets p !! d)).1).
Proof.
  destruct v; apply (api_call_effects roundTrip jsonDecode).
Qed.

Lemma api_call_behaviour_witness :
  let c := {| Credentials := {| oauth.Token := "t"; oauth.Secret := "s" |};
              queryQueue := make_chan 0; bucket := None |} in
  (exists p1,
     apiGet (Sample.scripted [inr "timeout"]) Sample.decode c "u" [] 1
       init_Process = Ret (Some (TransportError "timeout")) p1 /\
     targets p1 = targets init_Process) /\
  (exists p1,
     apiPost (Sample.scripted [Sample.ok "{}"]) Sample.decode c "u" [] 1
       init_Process = Ret None p1 /\
     targets p1 !! 1 = Some "{}").
Proof.
  intros c. split.
  - destruct (api_call_behaviour (Sample.scripted [inr "timeout"])
                Sample.decode GET c "u" [] 1 init_Process)
      as (err & p1 & E & _ & _ & _ & _ & _ & _ & Ht & _).
    destruct (Ht "timeout" eq_refl) as [-> Htg].
    exists p1. split; [exact E|exact Htg].
  - destruct (api_call_behaviour (Sample.scripted [Sample.ok "{}"])
                Sample.decode POST c "u" [] 1 init_Process)
      as (err & p1 & E & _ & _ & _ & _ & _ & _ & _ & _ & Hok).
    destruct (Hok _ eq_refl eq_refl) as [-> Htg].
    exists p1. split; [exact E|exact Htg].
Defined.

(** ** Form values *)

(** X9. [cleanValues] never returns the nil map: nil becomes an empty map
    and any other map is returned as it is.  Every key reads the same in
    the result as in the argument, and cleaning twice is cleaning once. *)
Theorem cleanValues_never_nil (v : NilableValues) :
  cleanValues None = Some [] /\
  cleanValues v <> None /\
  (forall m, cleanValues (Some m) = Some m) /\
  (forall key, Get key (cleanValues v) = Get key v) /\
  cleanValues (cleanValues v) = cleanValues v.
Proof.
  destruct v as [m|]; simpl; repeat split; discriminate.
Qed.

(** ** The consumer credentials and the authorization URL *)

(** X10. The two setters of the consumer credentials are independent:
    [SetConsumerKey] keeps the secret, [SetConsumerSecret] keeps the key,
    both keep the three OAuth endpoints, they can be called in either
    order, and the later of two calls of the same setter wins. *)
Theorem consumer_setters_compose (k k' s s' : string) (p : Process) :
  (SetConsumerKey k ;;; SetConsumerSecret s) p =
    (SetConsumerSecret s ;;; SetConsumerKey k) p /\
  (SetConsumerKey k ;;; SetConsumerKey k') p = SetConsumerKey k' p /\
  (SetConsumerSecret s ;;; SetConsumerSecret s') p = SetConsumerSecret s' p /\
  (let o := oauthClient (final (SetConsumerKey k p)) in
   oauth.ClientCredentials o =
     {| oauth.Token := k;
        oauth.Secret := oauth.Secret (oauth.ClientCredentials (oauthClient p)) |} /\
   oauth.TemporaryCredentialRequestURI o =
     oauth.TemporaryCredentialRequestURI (oauthClient p) /\
   oauth.ResourceOwnerAuthorizationURI o =
     oauth.ResourceOwnerAuthorizationURI (oauthClient p) /\
   oauth.TokenRequestURI o = oauth.TokenRequestURI (oauthClient p)) /\
  (let o := oauthClient (final (SetConsumerSecret s p)) in
   oauth.ClientCredentials o =
     {| oauth.Token := oauth.Token (oauth.ClientCredentials (oauthClient p));
        oauth.Secret := s |} /\
   oauth.TemporaryCredentialRequestURI o =
     oauth.TemporaryCredentialRequestURI (oauthClient p) /\
   oauth.ResourceOwnerAuthorizationURI o =
     oauth.ResourceOwnerAuthorizationURI (oauthClient p) /\
   oauth.TokenRequestURI o = oauth.TokenRequestURI (oauthClient p)).
Proof. repeat split. Qed.

(** X11. [AuthorizationURL] changes nothing in the process and asks the
    OAuth library with the consumer key and secret set last, in whichever
    order they were set, and with the endpoints as they were.  When the
    request for temporary credentials fails, the URL is empty and the
    error is the one of the library; otherwise there is no error and the
    URL is the one the library builds from the temporary credentials. *)
Theorem AuthorizationURL_uses_consumer_credentials
    (RequestTemporaryCredentials :
       oauth.Client -> string -> oauth.Credentials + string)
    (AuthorizationURL_of : oauth.Client -> oauth.Credentials -> string)
    (callback k s : string) (p : Process) :
  let client :=
    {| oauth.ClientCredentials := {| oauth.Token := k; oauth.Secret := s |};
       oauth.TemporaryCredentialRequestURI :=
         oauth.TemporaryCredentialRequestURI (oauthClient p);
       oauth.ResourceOwnerAuthorizationURI :=
         oauth.ResourceOwnerAuthorizationURI (oauthClient p);
       oauth.TokenRequestURI := oauth.TokenRequestURI (oauthClient p) |} in
  let expected :=
    match RequestTemporaryCredentials client callback with
    | inr err => ("", Some (TransportError err))
    | inl tempCred => (AuthorizationURL_of client tempCred, None)
    end in
  let p1 := final ((SetConsumerKey k ;;; SetConsumerSecret s) p) in
  let p2 := final ((SetConsumerSecret s ;;; SetConsumerKey k) p) in
  AuthorizationURL RequestTemporaryCredentials AuthorizationURL_of callback p1
    = Ret expected p1 /\
  AuthorizationURL RequestTemporaryCredentials AuthorizationURL_of callback p2
    = Ret expected p2 /\
  (expected.2 <> None -> expected.1 = "") /\
  (expected.2 = None ->
   exists tempCred,
     RequestTemporaryCredentials client callback = inl tempCred /\
     expected.1 = AuthorizationURL_of client tempCred).
Proof.
  intros client expected p1 p2. unfold AuthorizationURL. simpl.
  fold client. unfold expected.
  destruct (RequestTemporaryCredentials client callback) as [cred|err];
    simpl; repeat split; try congruence; eauto.
Qed.

Lemma AuthorizationURL_uses_consumer_credentials_witness :
  let request (cl : oauth.Client) (callback : string)
    : oauth.Credentials + string :=
    if String.eqb (oauth.Token (oauth.ClientCredentials cl)) ""
    then inr "consumer key missing"
    else inl {| oauth.Token := "temp"; oauth.Secret := "tempsecret" |} in
  let build (cl : oauth.Client) (cred : oauth.Credentials) : string :=
    String.append (oauth.ResourceOwnerAuthorizationURI cl)
      (String.append "?oauth_token=" (oauth.Token cred)) in
  (exists p1,
     AuthorizationURL request build "http://cb"
       (final ((SetConsumerKey "key" ;;; SetConsumerSecret "shh") init_Process))
     = Ret ("http://api.twitter.com/oauth/authenticate?oauth_token=temp", None)
         p1) /\
  (exists p1,
     AuthorizationURL request build "http://cb"
       (final ((SetConsumerKey "" ;;; SetConsumerSecret "shh") init_Process))
     = Ret ("", Some (TransportError "consumer key missing")) p1).
Proof.
  intros request build. split.
  - destruct (AuthorizationURL_uses_consumer_credentials request build
                "http://cb" "key" "shh" init_Process) as (E & _).
    eexists. exact E.
  - destruct (AuthorizationURL_uses_consumer_credentials request build
                "http://cb" "" "shh" init_Process) as (E & _).
    eexists. exact E.
Defined.
